(** * REGDANPHIB: the additive-synthesis instrument of [synth.py]

    A shallow embedding of class [Instrument] and of the properties its
    design document states about it.

    Conventions of the embedding.
    - Python numbers are exact rationals ([Qc], canonical fractions, so that
      equal numbers are equal terms).  The rounding of binary floating
      point, its overflow and underflow, and the difference between [int]
      and [float] are left out: a sample of a buffer, or a stored amplitude,
      is the value the program computes up to rounding.  What is discrete
      (whether a note is filed or deleted, how many turns an envelope
      takes, whether the octave is zero) is stated one operation at a time,
      through orderings that rounding keeps, or under hypotheses that keep
      to values binary64 holds exactly: [binary_step], [octave_kept] and
      the bounds on the octave below.  The amplitudes, steps and offsets of
      the concrete scenarios are dyadic, so binary floating point computes
      the same values there.
    - A Python dict is a finite map [gmap string Note]; the order in which a
      dict is iterated only decides the order in which voices are summed
      into the output buffer.
    - A method is a function from the instrument ([self]) to an [outcome]:
      it either returns a value or raises, and in both cases hands back the
      instrument as the method left it (Python does not roll back the
      assignments made before an exception).
    - [np.sin] and [np.pi] are parameters of the rendering functions. *)

From Stdlib Require Import QArith Qcanon Qround ZArith Lqa.
From stdpp Require Import base option list gmap strings numbers.

Local Open Scope Qc_scope.

(** ** Python values and exceptions *)

Inductive exn : Set :=
  | TypeError
  | KeyError
  | ZeroDivisionError
  | AssertionError.

#[global] Instance exn_eq_dec : EqDecision exn.
Proof. solve_decision. Defined.

(** [class Note]: a frequency and an envelope amplitude. *)
Record Note : Set := mkNote { fundamental : Qc; amp : Qc }.

#[global] Instance Note_eq_dec : EqDecision Note.
Proof. solve_decision. Defined.

(** A buffer of samples (a one-dimensional numpy array). *)
Abbreviation chunk := (list Qc) (only parsing).

(** The attributes assigned by [Instrument.__init__] ([self.stream] is the
    audio device and stays outside). *)
Record Instrument : Type := mkInstrument {
  harmonics : list Qc;
  amps : list Qc;
  attack : Qc;
  n_attack_samples : Qc;
  release : Qc;
  n_release_samples : Qc;
  sample_rate : Qc;
  chunk_size : nat;
  time_offset : Qc;
  buffer_time_lapse : Qc;
  time_chunk : list Qc;
  pressed_keys : gmap string Note;
  releasing_keys : gmap string Note;
  octave : Qc
}.

Definition set_time_offset (v : Qc) (self : Instrument) : Instrument :=
  mkInstrument (harmonics self) (amps self) (attack self)
    (n_attack_samples self) (release self) (n_release_samples self)
    (sample_rate self) (chunk_size self) v (buffer_time_lapse self)
    (time_chunk self) (pressed_keys self) (releasing_keys self) (octave self).

Definition set_pressed_keys (v : gmap string Note) (self : Instrument)
  : Instrument :=
  mkInstrument (harmonics self) (amps self) (attack self)
    (n_attack_samples self) (release self) (n_release_samples self)
    (sample_rate self) (chunk_size self) (time_offset self)
    (buffer_time_lapse self) (time_chunk self) v (releasing_keys self)
    (octave self).

Definition set_releasing_keys (v : gmap string Note) (self : Instrument)
  : Instrument :=
  mkInstrument (harmonics self) (amps self) (attack self)
    (n_attack_samples self) (release self) (n_release_samples self)
    (sample_rate self) (chunk_size self) (time_offset self)
    (buffer_time_lapse self) (time_chunk self) (pressed_keys self) v
    (octave self).

Definition set_octave (v : Qc) (self : Instrument) : Instrument :=
  mkInstrument (harmonics self) (amps self) (attack self)
    (n_attack_samples self) (release self) (n_release_samples self)
    (sample_rate self) (chunk_size self) (time_offset self)
    (buffer_time_lapse self) (time_chunk self) (pressed_keys self)
    (releasing_keys self) v.

(** ** Methods as state transformers that may raise *)

Inductive outcome (A : Type) : Type :=
  | Returns (a : A) (self : Instrument)
  | Raises (e : exn) (self : Instrument).
Arguments Returns {A} a self.
Arguments Raises {A} e self.

Definition M (A : Type) : Type := Instrument → outcome A.

#[global] Instance M_ret : MRet M := λ A a self, Returns a self.

#[global] Instance M_bind : MBind M := λ A B k m self,
  match m self with
  | Returns a self' => k a self'
  | Raises e self' => Raises e self'
  end.

Definition raise {A} (e : exn) : M A := λ self, Raises e self.

Definition gets {A} (f : Instrument → A) : M A := λ self, Returns (f self) self.

Definition modify (f : Instrument → Instrument) : M unit :=
  λ self, Returns tt (f self).

(** [try: body  except e: handler]. *)
Definition try_except {A} (body : M A) (e : exn) (handler : M A) : M A :=
  λ self, match body self with
          | Returns a self' => Returns a self'
          | Raises e' self' =>
              if decide (e' = e) then handler self' else Raises e' self'
          end.

(** [for x in xs: acc = body x acc], the accumulator standing for the local
    variables the loop body reassigns. *)
Fixpoint for_each {X A} (xs : list X) (body : X → A → M A) (acc : A) : M A :=
  match xs with
  | [] => mret acc
  | x :: xs' => acc' ← body x acc; for_each xs' body acc'
  end.

(** The instrument an outcome leaves behind, and its exception if any. *)
Definition state_after {A} (o : outcome A) : Instrument :=
  match o with Returns _ self => self | Raises _ self => self end.

Definition raised {A} (o : outcome A) : option exn :=
  match o with Returns _ _ => None | Raises e _ => Some e end.

(** Python operators on the values that occur in [synth.py]. *)

(** [x * y] where [y] may be [None]: a number times [None] is a
    [TypeError].  (The product of exact numbers: an [int] too large for a
    [float], which makes the program's product raise [OverflowError], is
    outside the numbers of the embedding.) *)
Definition py_mul (x : Qc) (y : option Qc) : M Qc :=
  match y with
  | Some v => mret (x * v)
  | None => raise TypeError
  end.

(** [x / y]: true division, [ZeroDivisionError] on a zero divisor. *)
Definition py_truediv (x y : Qc) : M Qc :=
  if decide (y = 0) then raise ZeroDivisionError else mret (x / y).

(** Truth value of a number, and of a number-or-[None]. *)
Definition py_bool (x : Qc) : bool := negb (bool_decide (x = 0)).

Definition py_bool_opt (x : option Qc) : bool :=
  match x with Some v => py_bool v | None => false end.

(** [d[key]]: [KeyError] when the key is missing. *)
Definition py_getitem (d : gmap string Note) (key : string) : M Note :=
  match d !! key with
  | Some n => mret n
  | None => raise KeyError
  end.

(** [del d[key]]. *)
Definition py_delitem (d : gmap string Note) (key : string)
  : M (gmap string Note) :=
  match d !! key with
  | Some _ => mret (delete key d)
  | None => raise KeyError
  end.

(** ** Key-to-frequency map *)

(** [Instrument._key_to_freq]: the two octave keys change [self.octave] and
    fall off the end of the function ([None]); a note key returns its
    frequency; any other key returns [None].  (The octave is halved and
    doubled exactly: the program's octave agrees while it stays a power of
    2 that binary64 holds, see [octave_kept].) *)
Definition _key_to_freq (in_key : string) : M (option Qc) :=
  if String.eqb in_key "z" then
    modify (λ self, set_octave (octave self / 2) self) ;; mret None
  else if String.eqb in_key "x" then
    modify (λ self, set_octave (octave self * 2) self) ;; mret None
  else if String.eqb in_key "a" then mret (Some (Q2Qc 261.63))
  else if String.eqb in_key "w" then mret (Some (Q2Qc 277.18))
  else if String.eqb in_key "s" then mret (Some (Q2Qc 293.66))
  else if String.eqb in_key "e" then mret (Some (Q2Qc 311.13))
  else if String.eqb in_key "d" then mret (Some (Q2Qc 329.63))
  else if String.eqb in_key "f" then mret (Some (Q2Qc 349.23))
  else if String.eqb in_key "t" then mret (Some (Q2Qc 369.99))
  else if String.eqb in_key "g" then mret (Some (Q2Qc 392.00))
  else if String.eqb in_key "y" then mret (Some (Q2Qc 415.30))
  else if String.eqb in_key "h" then mret (Some (Q2Qc 440.00))
  else if String.eqb in_key "u" then mret (Some (Q2Qc 466.16))
  else if String.eqb in_key "j" then mret (Some (Q2Qc 493.88))
  else if String.eqb in_key "k" then mret (Some (Q2Qc 523.25))
  else if String.eqb in_key "o" then mret (Some (Q2Qc 554.37))
  else if String.eqb in_key "l" then mret (Some (Q2Qc 587.33))
  else if String.eqb in_key "p" then mret (Some (Q2Qc 622.25))
  else if String.eqb in_key "ñ" then mret (Some (Q2Qc 659.25))
  else mret None.

(** The frequency table alone: what [_key_to_freq] returns, without its
    effect on the octave. *)
Definition base_frequency (in_key : string) : option Qc :=
  match _key_to_freq in_key (mkInstrument [] [] 0 0 0 0 0 0 0 0 [] ∅ ∅ 1) with
  | Returns r _ => r
  | Raises _ _ => None
  end.

(** ** numpy on one-dimensional arrays

    Every array the instrument combines has [chunk_size] elements. *)

Definition Qc_of_nat (n : nat) : Qc := Qc_of_Z (Z.of_nat n).

Definition np_zeros (n : nat) : list Qc := replicate n 0.

Definition np_ones (n : nat) : list Qc := replicate n 1.

(** [np.linspace(start, stop, num, endpoint=False)]: [num] samples
    [start + i * step] with [step = (stop - start) / num]. *)
Definition np_linspace (start stop : Qc) (num : nat) : list Qc :=
  let step := (stop - start) / Qc_of_nat num in
  map (λ i, Qc_of_nat i * step + start) (seq 0 num).

Definition np_add (a b : list Qc) : list Qc := zip_with Qcplus a b.

Definition np_multiply (a b : list Qc) : list Qc := zip_with Qcmult a b.

(** ** Construction *)

(** Truth value of a tuple of two elements: only the empty tuple is
    false. *)
Definition py_bool_pair {A B} (t : A * B) : bool := true.

(** [Instrument.__init__].  The [assert] statement is given a parenthesised
    pair [(len(amps) == len(harmonics), message)]: evaluating the pair
    takes [len(amps)] (a [TypeError] when [amps] is the default [None]) and
    the value asserted is the pair itself.  When [release * sample_rate] is
    zero it is [n_attack_samples] that is reset to 1. *)
Definition Instrument_init (harmonics0 : list Qc) (amps0 : option (list Qc))
    (attack0 release0 sample_rate0 : Qc) (chunk_size0 : nat)
  : exn + Instrument :=
  let self_amps :=
    match amps0 with
    | None => np_ones (length harmonics0)
    | Some a => a
    end in
  match amps0 with
  | None => inl TypeError
  | Some a =>
      let asserted :=
        (bool_decide (length a = length harmonics0),
         "size of amps does not match freqs or harmonics") in
      if negb (py_bool_pair asserted) then inl AssertionError else
      let n_attack := attack0 * sample_rate0 in
      let n_attack := if decide (n_attack = 0) then 1 else n_attack in
      let n_release := release0 * sample_rate0 in
      let n_attack := if decide (n_release = 0) then 1 else n_attack in
      if decide (sample_rate0 = 0) then inl ZeroDivisionError else
      let lapse := Qc_of_nat chunk_size0 / sample_rate0 in
      inr {| harmonics := harmonics0;
             amps := self_amps;
             attack := attack0;
             n_attack_samples := n_attack;
             release := release0;
             n_release_samples := n_release;
             sample_rate := sample_rate0;
             chunk_size := chunk_size0;
             time_offset := 0;
             buffer_time_lapse := lapse;
             time_chunk := np_linspace 0 lapse chunk_size0;
             pressed_keys := ∅;
             releasing_keys := ∅;
             octave := 1 |}
  end.

(** ** Key events *)

(** [Instrument.key_press].  The left operand [self.octave] is read before
    [_key_to_freq] runs; the product is formed before the [if]. *)
Definition key_press (in_key : string) : M unit :=
  oct ← gets octave;
  freq ← _key_to_freq in_key;
  fund ← py_mul oct freq;
  if py_bool fund then
    modify (λ self,
      set_pressed_keys (<[in_key := mkNote fund 0]> (pressed_keys self)) self)
  else mret tt.

(** [Instrument.key_release]. *)
Definition key_release (in_key : string) : M unit :=
  freq ← _key_to_freq in_key;
  if py_bool_opt freq then
    pressed ← gets pressed_keys;
    n1 ← py_getitem pressed in_key;
    n2 ← py_getitem pressed in_key;
    modify (λ self,
      set_releasing_keys
        (<[in_key := mkNote (fundamental n1) (amp n2)]> (releasing_keys self))
        self);;
    pressed ← gets pressed_keys;
    pressed' ← py_delitem pressed in_key;
    modify (set_pressed_keys pressed')
  else mret tt.

(** ** Rendering *)

Section Rendering.

(** [np.sin] (applied sample by sample) and [np.pi]. *)
Variable np_sin : Qc → Qc.
Variable np_pi : Qc.

(** One harmonic of frequency [f] and weight [a] over the sample times. *)
Definition harmonic_wave (times : list Qc) (f a : Qc) : list Qc :=
  map (λ t, a * np_sin (2 * np_pi * f * t)) times.

(** [Instrument._generate_sound_chunk]. *)
Definition _generate_sound_chunk (fund : Qc) : M (list Qc) :=
  gets (λ self,
    let chunk := np_zeros (chunk_size self) in
    let times := map (λ t, t + time_offset self) (time_chunk self) in
    fold_left (λ chunk fa, np_add chunk (harmonic_wave times fa.1 fa.2))
      (zip (map (Qcmult fund) (harmonics self)) (amps self)) chunk).

(** The body of the loop of [_generate_pressed_sound], for one key. *)
Definition pressed_body (key : string) (chunk : list Qc) : M (list Qc) :=
  try_except
    (pressed ← gets pressed_keys;
     note ← py_getitem pressed key;
     key_chunk ← _generate_sound_chunk (fundamental note);
     key_chunk ←
       (if bool_decide (amp note < 1) then
          size ← gets chunk_size;
          n ← gets n_attack_samples;
          step ← py_truediv (Qc_of_nat size) n;
          let amp_end := amp note + step in
          let attack_envelope := np_linspace (amp note) amp_end size in
          let key_chunk := np_multiply key_chunk attack_envelope in
          modify (λ self,
            set_pressed_keys
              (<[key := mkNote (fundamental note) amp_end]>
                 (pressed_keys self))
              self);;
          (if bool_decide (1 ≤ amp_end) then
             modify (λ self,
               set_pressed_keys
                 (<[key := mkNote (fundamental note) 1]> (pressed_keys self))
                 self)
           else mret tt);;
          mret key_chunk
        else mret key_chunk);
     mret (np_add chunk key_chunk))
    KeyError
    (mret chunk).

(** [Instrument._generate_pressed_sound]. *)
Definition _generate_pressed_sound : M (list Qc) :=
  size ← gets chunk_size;
  pressed ← gets pressed_keys;
  for_each (map_to_list pressed).*1 pressed_body (np_zeros size).

(** The body of the loop of [_generate_releasing_sound], for one key. *)
Definition releasing_body (key : string) (chunk : list Qc) : M (list Qc) :=
  try_except
    (releasing ← gets releasing_keys;
     note ← py_getitem releasing key;
     if bool_decide (0 < amp note) then
       key_chunk ← _generate_sound_chunk (fundamental note);
       size ← gets chunk_size;
       n ← gets n_attack_samples;
       step ← py_truediv (Qc_of_nat size) n;
       let amp_end := amp note - step in
       let attack_envelope := np_linspace (amp note) amp_end size in
       let key_chunk := np_multiply key_chunk attack_envelope in
       modify (λ self,
         set_releasing_keys
           (<[key := mkNote (fundamental note) amp_end]> (releasing_keys self))
           self);;
       mret (np_add chunk key_chunk)
     else
       releasing ← gets releasing_keys;
       releasing' ← py_delitem releasing key;
       modify (set_releasing_keys releasing');;
       mret chunk)
    KeyError
    (mret chunk).

(** [Instrument._generate_releasing_sound]. *)
Definition _generate_releasing_sound : M (list Qc) :=
  size ← gets chunk_size;
  releasing ← gets releasing_keys;
  for_each (map_to_list releasing).*1 releasing_body (np_zeros size).

(** One turn of the [while True] loop of [emit_sound]: the buffer handed
    to [self.stream.write] (before its conversion to 32-bit samples), or
    [None] when both registries are empty and nothing is written. *)
Definition emit_sound_turn : M (option (list Qc)) :=
  pressed ← gets pressed_keys;
  releasing ← gets releasing_keys;
  if bool_decide (pressed = ∅) && bool_decide (releasing = ∅) then
    modify (set_time_offset 0);; mret None
  else
    size ← gets chunk_size;
    let chunk := np_zeros size in
    a ← _generate_pressed_sound;
    b ← _generate_releasing_sound;
    let chunk := np_add chunk (np_add a b) in
    modify (λ self,
      set_time_offset (time_offset self + buffer_time_lapse self) self);;
    offset ← gets time_offset;
    (if bool_decide (Qc_of_Z 360 < offset) then modify (set_time_offset 0)
     else mret tt);;
    mret (Some chunk).

(** [Instrument.emit_sound], interrupted after [turns] turns of its loop:
    the buffers written to the stream, in order. *)
Fixpoint emit_sound (turns : nat) : M (list (list Qc)) :=
  match turns with
  | O => mret []
  | S turns' =>
      written ← emit_sound_turn;
      rest ← emit_sound turns';
      mret (option_list written ++ rest)
  end.

End Rendering.

(** ** Events *)

(** What reaches the instrument: the two key events, delivered by the
    listener callbacks, and the turns of the audio loop.  The callbacks
    wrap [key_press] and [key_release] in [try: ... except: pass], so an
    exception ends the call and the instrument goes on from the state the
    call left. *)
Inductive event : Set :=
  | KeyPress (in_key : string)
  | KeyRelease (in_key : string)
  | Turn.

Section Events.

Variable np_sin : Qc → Qc.
Variable np_pi : Qc.

Definition handle (e : event) (self : Instrument) : Instrument :=
  match e with
  | KeyPress k => state_after (key_press k self)
  | KeyRelease k => state_after (key_release k self)
  | Turn => state_after (emit_sound_turn np_sin np_pi self)
  end.

Definition run (es : list event) (self : Instrument) : Instrument :=
  foldl (λ s e, handle e s) self es.

End Events.

(** ** The listener callbacks of the script

    The keys the listener delivers are objects of the [pynput] library: a
    character key has an attribute [char] and no attribute [name]; a
    special key (control, shift, ...) has an attribute [name] and no
    attribute [char].  Reading a missing attribute raises, which the bare
    [except:] clauses of the callbacks catch like any other exception.
    Character keys are taken with their character given. *)
Inductive pynput_key : Set :=
  | KeyCode (char : string)
  | Key (name : string).

#[global] Instance pynput_key_eq_dec : EqDecision pynput_key.
Proof. solve_decision. Defined.

#[global] Instance pynput_key_countable : Countable pynput_key.
Proof.
  refine (inj_countable'
            (λ k, match k with KeyCode c => inl c | Key n => inr n end)
            (λ x, match x with inl c => KeyCode c | inr n => Key n end) _).
  by intros [].
Defined.

(** [key.char] and [key.name]: [None] when the attribute is missing. *)
Definition key_char (key : pynput_key) : option string :=
  match key with KeyCode char => Some char | Key _ => None end.

Definition key_name (key : pynput_key) : option string :=
  match key with KeyCode _ => None | Key name => Some name end.

(** What the callbacks share: the set [pressed] of the keys held down and
    the instrument. *)
Record session : Type := mkSession {
  pressed : gset pynput_key;
  instrument : Instrument
}.

(** The inner [try] of [on_press]: [return False] when [key.name] is
    ['ctrl'], nothing otherwise or when the attribute is missing. *)
Definition ctrl_check (key : pynput_key) : option bool :=
  match key_name key with
  | Some name => if String.eqb name "ctrl" then Some false else None
  | None => None
  end.

(** [on_press]: the value returned ([Some false] for [return False], [None]
    when the function runs off its end) and the session it leaves. *)
Definition on_press (key : pynput_key) (s : session)
  : option bool * session :=
  if decide (key ∈ pressed s) then (None, s)
  else
    let held := {[key]} ∪ pressed s in
    match key_char key with
    | Some char =>
        match key_press char (instrument s) with
        | Returns _ self => (None, mkSession held self)
        | Raises _ self => (ctrl_check key, mkSession held self)
        end
    | None => (ctrl_check key, mkSession held (instrument s))
    end.

(** [on_release]. *)
Definition on_release (key : pynput_key) (s : session) : session :=
  let held := pressed s ∖ {[key]} in
  match key_char key with
  | Some char =>
      mkSession held (state_after (key_release char (instrument s)))
  | None => mkSession held (instrument s)
  end.

(** * The state functions the statements are written with *)

(** The amount added to (attack) or taken from (release) an amplitude per
    turn: both loops divide [chunk_size] by [n_attack_samples]. *)
Definition envelope_step (self : Instrument) : Qc :=
  Qc_of_nat (chunk_size self) / n_attack_samples self.

(** What one turn does to a pressed note. *)
Definition attack_note (d : Qc) (n : Note) : Note :=
  if bool_decide (amp n < 1) then
    mkNote (fundamental n)
      (if bool_decide (1 ≤ amp n + d) then 1 else amp n + d)
  else n.

(** What one turn does to a releasing note: [None] when it is deleted. *)
Definition release_note (d : Qc) (n : Note) : option Note :=
  if bool_decide (0 < amp n) then Some (mkNote (fundamental n) (amp n - d))
  else None.

(** The state one turn of the loop leaves. *)
Definition idle (self : Instrument) : bool :=
  bool_decide (pressed_keys self = ∅) && bool_decide (releasing_keys self = ∅).

Definition next_offset (self : Instrument) : Qc :=
  let offset := time_offset self + buffer_time_lapse self in
  if bool_decide (Qc_of_Z 360 < offset) then 0 else offset.

Definition turn_state (self : Instrument) : Instrument :=
  if idle self then set_time_offset 0 self
  else
    set_time_offset (next_offset self)
      (set_releasing_keys
         (omap (release_note (envelope_step self)) (releasing_keys self))
         (set_pressed_keys
            (attack_note (envelope_step self) <$> pressed_keys self) self)).

(** The effect of [_key_to_freq] on the octave. *)
Definition octave_shift (in_key : string) (self : Instrument) : Instrument :=
  if String.eqb in_key "z" then set_octave (octave self / 2) self
  else if String.eqb in_key "x" then set_octave (octave self * 2) self
  else self.

(** The state each key event leaves, whether the method returns or
    raises. *)
Definition press_state (in_key : string) (self : Instrument) : Instrument :=
  match base_frequency in_key with
  | Some f =>
      if py_bool (octave self * f) then
        set_pressed_keys
          (<[in_key := mkNote (octave self * f) 0]> (pressed_keys self)) self
      else self
  | None => octave_shift in_key self
  end.

Definition release_state (in_key : string) (self : Instrument) : Instrument :=
  match base_frequency in_key with
  | Some f =>
      match pressed_keys self !! in_key with
      | Some n =>
          set_pressed_keys (delete in_key (pressed_keys self))
            (set_releasing_keys (<[in_key := n]> (releasing_keys self)) self)
      | None => self
      end
  | None => octave_shift in_key self
  end.

(** The state after one event, and after a sequence of events, computed
    from the state functions alone, without rendering. *)
Definition event_state (e : event) (self : Instrument) : Instrument :=
  match e with
  | KeyPress k => press_state k self
  | KeyRelease k => release_state k self
  | Turn => turn_state self
  end.

Definition run_state (es : list event) (self : Instrument) : Instrument :=
  foldl (λ s e, event_state e s) self es.

(** The attributes no event assigns. *)
Definition same_settings (s s' : Instrument) : Prop :=
  harmonics s' = harmonics s
  ∧ amps s' = amps s
  ∧ attack s' = attack s
  ∧ n_attack_samples s' = n_attack_samples s
  ∧ release s' = release s
  ∧ n_release_samples s' = n_release_samples s
  ∧ sample_rate s' = sample_rate s
  ∧ chunk_size s' = chunk_size s
  ∧ buffer_time_lapse s' = buffer_time_lapse s
  ∧ time_chunk s' = time_chunk s.

(** Only note keys enter the registry of pressed keys. *)
Definition note_keys_only (self : Instrument) : Prop :=
  ∀ k, is_Some (pressed_keys self !! k) → is_Some (base_frequency k).

(** Pressed notes lie in [[0, 1]]; releasing notes lie in [(-d, 1]], where
    [d] is the step of the envelope. *)
Definition amplitudes_bounded (d : Qc) (self : Instrument) : Prop :=
  (∀ k n, pressed_keys self !! k = Some n → 0 ≤ amp n ∧ amp n ≤ 1)
  ∧ (∀ k n, releasing_keys self !! k = Some n → - d < amp n ∧ amp n ≤ 1).

(** The closed form of the design document at one sample time [t]: the sum
    over the harmonics of [weight * sin(2 * pi * fundamental * ratio * t)],
    taken in the order of the harmonics. *)
Definition closed_form_wave (np_sin : Qc → Qc) (np_pi : Qc)
    (ratios weights : list Qc) (fund t : Qc) : Qc :=
  fold_left (λ acc fa, acc + fa.2 * np_sin (2 * np_pi * fa.1 * t))
    (zip (map (Qcmult fund) ratios) weights) 0.

(** The sample times of [turns] buffers taken as one: a single
    [np.linspace] over [turns] buffer durations, from the current offset. *)
Definition contiguous_times (self : Instrument) (turns : nat) : list Qc :=
  map (λ t, t + time_offset self)
    (np_linspace 0 (Qc_of_nat turns * buffer_time_lapse self)
       (turns * chunk_size self)).

(** The buffers of [turns] turns, the offset advancing by [lapse] from
    one to the next. *)
Fixpoint sustained_buffers (wave : Qc → Qc) (times : list Qc) (lapse : Qc)
    (turns : nat) (offset : Qc) : list (list Qc) :=
  match turns with
  | O => []
  | S turns' =>
      map (λ t, wave (t + offset)) times
      :: sustained_buffers wave times lapse turns' (offset + lapse)
  end.

(** Rational stand-ins for [np.sin] and [np.pi], for running a scenario
    from the constructor to a concrete state. *)
Definition taylor_sin (x : Qc) : Qc := x - x * x * x / Qc_of_Z 6.
Definition approx_pi : Qc := Qc_of_Z 22 / Qc_of_Z 7.

(** The value a call returns, if it returns. *)
Definition returned {A} (o : outcome A) : option A :=
  match o with Returns a _ => Some a | Raises _ _ => None end.

(** The note keys, in the order of [_key_to_freq]. *)
Definition note_keys : list string :=
  ["a"; "w"; "s"; "e"; "d"; "f"; "t"; "g"; "y"; "h"; "u"; "j"; "k"; "o";
   "l"; "p"; "ñ"].

(** The events that carry the symbol [sym], presses and releases alike,
    and how many of them a sequence holds ([sym = "z"]: the events that
    halve the octave; [sym = "x"]: those that double it). *)
Definition carries (sym : string) (e : event) : bool :=
  match e with
  | KeyPress k | KeyRelease k => String.eqb k sym
  | Turn => false
  end.

Fixpoint octave_events (sym : string) (es : list event) : nat :=
  match es with
  | [] => 0
  | e :: es' => (if carries sym e then 1 else 0) + octave_events sym es'
  end.




(** The octave as an exponent of 2: what an event adds to it, and whether
    it stays within [-1000, 1000] after every event of a sequence.  Within
    these bounds the program's octave, an [int] or a binary64 [float], is
    the exact power of 2; beyond them the float underflows to zero (after
    1075 halvings) and the conversion of the int to a float overflows. *)
Definition octave_move (e : event) : Z :=
  if carries "x" e then 1 else if carries "z" e then (-1) else 0.

Fixpoint octave_kept (exponent : Z) (es : list event) : bool :=
  match es with
  | [] => true
  | e :: es' =>
      let exponent' := (exponent + octave_move e)%Z in
      bool_decide (-1000 ≤ exponent' ≤ 1000)%Z && octave_kept exponent' es'
  end.

(** * Properties *)

(** A closed, decidable statement is settled by evaluating it. *)
Ltac by_compute := apply (bool_decide_unpack _); vm_compute; exact I.

Ltac munfold :=
  unfold mbind, M_bind, mret, M_ret, gets, modify, raise, try_except,
    py_getitem, py_delitem, py_truediv, py_mul.

Lemma insert_as_alter (f : Note → Note) (m : gmap string Note) k n :
  m !! k = Some n → <[k := f n]> m = alter f k m.
Proof.
  intros Hk. apply map_eq. intros j.
  rewrite lookup_insert, lookup_alter. case_decide; [by rewrite Hk|done].
Qed.

Lemma alter_missing (f : Note → Note) (m : gmap string Note) k :
  m !! k = None → alter f k m = m.
Proof.
  intros Hk. apply map_eq. intros j.
  rewrite lookup_alter. case_decide; subst; [by rewrite Hk|done].
Qed.

Lemma insert_as_partial_alter (f : Note → option Note)
    (m : gmap string Note) k n n' :
  m !! k = Some n → f n = Some n' →
  <[k := n']> m = partial_alter (λ o, o ≫= f) k m.
Proof.
  intros Hk Hf. apply map_eq. intros j.
  rewrite lookup_insert, lookup_partial_alter.
  case_decide; [by rewrite Hk|done].
Qed.

Lemma delete_as_partial_alter (f : Note → option Note)
    (m : gmap string Note) k :
  m !! k ≫= f = None → delete k m = partial_alter (λ o, o ≫= f) k m.
Proof.
  intros Hk. apply map_eq. intros j.
  rewrite lookup_delete, lookup_partial_alter. case_decide; done.
Qed.

Lemma partial_alter_missing (f : Note → option Note)
    (m : gmap string Note) k :
  m !! k = None → partial_alter (λ o, o ≫= f) k m = m.
Proof.
  intros Hk. apply map_eq. intros j.
  rewrite lookup_partial_alter. case_decide; subst; [by rewrite Hk|done].
Qed.

Lemma foldl_alter_lookup (f : Note → Note) ks : NoDup ks →
  ∀ (m : gmap string Note) k,
    foldl (λ m k, alter f k m) m ks !! k =
    if decide (k ∈ ks) then f <$> m !! k else m !! k.
Proof.
  induction 1 as [|k0 ks Hk0 Hnd IH]; intros m k; simpl.
  - done.
  - rewrite IH, lookup_alter.
    destruct (decide (k0 = k)) as [->|Hne].
    + rewrite decide_False by done. rewrite decide_True by set_solver. done.
    + destruct (decide (k ∈ ks)) as [Hin|Hin],
        (decide (k ∈ k0 :: ks)) as [Hin'|Hin']; try done;
        rewrite elem_of_cons in Hin'; exfalso; intuition congruence.
Qed.

Lemma foldl_alter_keys (f : Note → Note) (m : gmap string Note) :
  foldl (λ m k, alter f k m) m (map_to_list m).*1 = f <$> m.
Proof.
  apply map_eq. intros k.
  rewrite foldl_alter_lookup by apply NoDup_fst_map_to_list.
  rewrite lookup_fmap. case_decide as Hin; [done|].
  destruct (m !! k) as [n|] eqn:Hk; [|done].
  exfalso. apply Hin. apply list_elem_of_fmap. exists (k, n).
  split; [done|]. by apply elem_of_map_to_list.
Qed.

Lemma foldl_partial_alter_lookup (f : Note → option Note) ks : NoDup ks →
  ∀ (m : gmap string Note) k,
    foldl (λ m k, partial_alter (λ o, o ≫= f) k m) m ks !! k =
    if decide (k ∈ ks) then m !! k ≫= f else m !! k.
Proof.
  induction 1 as [|k0 ks Hk0 Hnd IH]; intros m k; simpl.
  - done.
  - rewrite IH, lookup_partial_alter.
    destruct (decide (k0 = k)) as [->|Hne].
    + rewrite decide_False by done. rewrite decide_True by set_solver. done.
    + destruct (decide (k ∈ ks)) as [Hin|Hin],
        (decide (k ∈ k0 :: ks)) as [Hin'|Hin']; try done;
        rewrite elem_of_cons in Hin'; exfalso; intuition congruence.
Qed.

Lemma foldl_partial_alter_keys (f : Note → option Note)
    (m : gmap string Note) :
  foldl (λ m k, partial_alter (λ o, o ≫= f) k m) m (map_to_list m).*1
  = omap f m.
Proof.
  apply map_eq. intros k.
  rewrite foldl_partial_alter_lookup by apply NoDup_fst_map_to_list.
  rewrite lookup_omap. case_decide as Hin; [done|].
  destruct (m !! k) as [n|] eqn:Hk; [|done].
  exfalso. apply Hin. apply list_elem_of_fmap. exists (k, n).
  split; [done|]. by apply elem_of_map_to_list.
Qed.

(** ** One turn of the audio loop, as a function of the state *)

Section Turns.

Variable np_sin : Qc → Qc.
Variable np_pi : Qc.

Lemma pressed_body_state key chunk self :
  n_attack_samples self ≠ 0 →
  ∃ c, pressed_body np_sin np_pi key chunk self =
       Returns c (set_pressed_keys
                    (alter (attack_note (envelope_step self)) key
                       (pressed_keys self))
                    self).
Proof.
  intros Hn. unfold pressed_body, _generate_sound_chunk. munfold.
  destruct (pressed_keys self !! key) as [note|] eqn:Hk; cbn.
  - rewrite <- (insert_as_alter _ _ _ _ Hk). unfold attack_note.
    case_bool_decide as Hlt; cbn.
    + rewrite decide_False by done. cbn.
      fold (envelope_step self).
      case_bool_decide; cbn; [rewrite insert_insert_eq|]; eauto.
    + rewrite insert_id by (rewrite Hk; by destruct note).
      destruct self; eauto.
  - rewrite alter_missing by done. destruct self; eauto.
Qed.

Lemma for_each_pressed ks : ∀ chunk self,
  n_attack_samples self ≠ 0 →
  ∃ c, for_each ks (pressed_body np_sin np_pi) chunk self =
       Returns c (set_pressed_keys
                    (foldl (λ m k, alter (attack_note (envelope_step self)) k m)
                       (pressed_keys self) ks)
                    self).
Proof.
  induction ks as [|k ks IH]; intros chunk self Hn; simpl.
  - destruct self; by eexists.
  - unfold mbind, M_bind.
    destruct (pressed_body_state k chunk self Hn) as [c ->].
    destruct (IH c (set_pressed_keys
                      (alter (attack_note (envelope_step self)) k
                         (pressed_keys self)) self) Hn) as [c' ->].
    by eexists.
Qed.

Lemma generate_pressed_sound_state self :
  n_attack_samples self ≠ 0 →
  ∃ c, _generate_pressed_sound np_sin np_pi self =
       Returns c (set_pressed_keys
                    (attack_note (envelope_step self) <$> pressed_keys self)
                    self).
Proof.
  intros Hn. unfold _generate_pressed_sound. munfold.
  destruct (for_each_pressed (map_to_list (pressed_keys self)).*1
              (np_zeros (chunk_size self)) self Hn) as [c ->].
  rewrite foldl_alter_keys. by eexists.
Qed.

Lemma releasing_body_state key chunk self :
  n_attack_samples self ≠ 0 →
  ∃ c, releasing_body np_sin np_pi key chunk self =
       Returns c (set_releasing_keys
                    (partial_alter
                       (λ o, o ≫= release_note (envelope_step self)) key
                       (releasing_keys self))
                    self).
Proof.
  intros Hn. unfold releasing_body, _generate_sound_chunk. munfold.
  destruct (releasing_keys self !! key) as [note|] eqn:Hk; cbn.
  - case_bool_decide as Hpos; cbn.
    + rewrite decide_False by done. cbn. fold (envelope_step self).
      erewrite <- (insert_as_partial_alter _ _ _ _ _ Hk); [by eexists|].
      unfold release_note. by rewrite bool_decide_true.
    + rewrite Hk. cbn.
      rewrite <- delete_as_partial_alter; [by eexists|].
      rewrite Hk. cbn. unfold release_note. by rewrite bool_decide_false.
  - rewrite partial_alter_missing by done. destruct self; by eexists.
Qed.

Lemma for_each_releasing ks : ∀ chunk self,
  n_attack_samples self ≠ 0 →
  ∃ c, for_each ks (releasing_body np_sin np_pi) chunk self =
       Returns c (set_releasing_keys
                    (foldl (λ m k,
                       partial_alter
                         (λ o, o ≫= release_note (envelope_step self)) k m)
                       (releasing_keys self) ks)
                    self).
Proof.
  induction ks as [|k ks IH]; intros chunk self Hn; simpl.
  - destruct self; by eexists.
  - unfold mbind, M_bind.
    destruct (releasing_body_state k chunk self Hn) as [c ->].
    destruct (IH c (set_releasing_keys
                      (partial_alter
                         (λ o, o ≫= release_note (envelope_step self)) k
                         (releasing_keys self)) self) Hn) as [c' ->].
    by eexists.
Qed.

Lemma generate_releasing_sound_state self :
  n_attack_samples self ≠ 0 →
  ∃ c, _generate_releasing_sound np_sin np_pi self =
       Returns c (set_releasing_keys
                    (omap (release_note (envelope_step self))
                       (releasing_keys self))
                    self).
Proof.
  intros Hn. unfold _generate_releasing_sound. munfold.
  destruct (for_each_releasing (map_to_list (releasing_keys self)).*1
              (np_zeros (chunk_size self)) self Hn) as [c ->].
  rewrite foldl_partial_alter_keys. by eexists.
Qed.

Lemma emit_sound_turn_state self :
  n_attack_samples self ≠ 0 →
  ∃ w, emit_sound_turn np_sin np_pi self = Returns w (turn_state self).
Proof.
  intros Hn. unfold emit_sound_turn, turn_state, idle. munfold.
  destruct (bool_decide (pressed_keys self = ∅)
            && bool_decide (releasing_keys self = ∅)); [by eexists|].
  destruct (generate_pressed_sound_state self Hn) as [a ->].
  destruct (generate_releasing_sound_state
              (set_pressed_keys
                 (attack_note (envelope_step self) <$> pressed_keys self)
                 self) Hn) as [b ->].
  unfold next_offset. cbn. case_bool_decide; by eexists.
Qed.

Lemma handle_turn self :
  n_attack_samples self ≠ 0 → handle np_sin np_pi Turn self = turn_state self.
Proof.
  intros Hn. simpl. by destruct (emit_sound_turn_state self Hn) as [w ->].
Qed.

Lemma turn_state_pressed self :
  pressed_keys (turn_state self)
  = attack_note (envelope_step self) <$> pressed_keys self.
Proof.
  unfold turn_state, idle.
  case_bool_decide as Hp; [|done]. case_bool_decide as Hr; [|done].
  simpl. by rewrite Hp, fmap_empty.
Qed.

Lemma turn_state_releasing self :
  releasing_keys (turn_state self)
  = omap (release_note (envelope_step self)) (releasing_keys self).
Proof.
  unfold turn_state, idle.
  case_bool_decide as Hp; [|done]. case_bool_decide as Hr; [|done].
  simpl. by rewrite Hr, omap_empty.
Qed.

End Turns.

(** ** The key events, as functions of the state *)

Lemma key_to_freq_cases in_key self :
  (in_key = "z"
   ∧ _key_to_freq in_key self
     = Returns None (set_octave (octave self / 2) self))
  ∨ (in_key = "x"
     ∧ _key_to_freq in_key self
       = Returns None (set_octave (octave self * 2) self))
  ∨ (in_key ≠ "z" ∧ in_key ≠ "x"
     ∧ _key_to_freq in_key self = Returns (base_frequency in_key) self).
Proof.
  unfold base_frequency, _key_to_freq.
  destruct (String.eqb_spec in_key "z"); [by left|].
  destruct (String.eqb_spec in_key "x"); [by right; left|].
  right; right. split; [done|]. split; [done|].
  repeat (destruct (String.eqb in_key _); [reflexivity|]). reflexivity.
Qed.

Lemma base_frequency_octave_keys :
  base_frequency "z" = None ∧ base_frequency "x" = None.
Proof. by vm_compute. Qed.

Lemma base_frequency_nonzero in_key f :
  base_frequency in_key = Some f → py_bool f = true.
Proof.
  unfold base_frequency, _key_to_freq.
  repeat (destruct (String.eqb in_key _);
          [by (intros [= <-]; vm_compute) || done|]).
  done.
Qed.

Lemma note_eta n : mkNote (fundamental n) (amp n) = n.
Proof. by destruct n. Qed.

(** A note key: the voice is (re)started at amplitude 0, unless the
    product with the octave is zero. *)
Lemma key_press_note in_key f self :
  base_frequency in_key = Some f →
  key_press in_key self
  = Returns tt
      (if py_bool (octave self * f) then
         set_pressed_keys
           (<[in_key := mkNote (octave self * f) 0]> (pressed_keys self)) self
       else self).
Proof.
  intros Hf. unfold key_press. munfold.
  destruct (key_to_freq_cases in_key self) as [[-> _]|[[-> _]|(_ & _ & ->)]].
  - by destruct base_frequency_octave_keys as [? _]; simplify_eq.
  - by destruct base_frequency_octave_keys as [_ ?]; simplify_eq.
  - rewrite Hf. cbn. by destruct (py_bool _).
Qed.

(** Any other key: the product of the octave with [None] raises, after
    [_key_to_freq] has had its effect on the octave. *)
Lemma key_press_other in_key self :
  base_frequency in_key = None →
  key_press in_key self = Raises TypeError (octave_shift in_key self).
Proof.
  intros Hf. unfold key_press, octave_shift. munfold.
  destruct (key_to_freq_cases in_key self)
    as [[-> ->]|[[-> ->]|(Hz & Hx & ->)]]; [done..|].
  rewrite Hf. cbn.
  destruct (String.eqb_spec in_key "z"); [done|].
  by destruct (String.eqb_spec in_key "x").
Qed.

Lemma key_release_note in_key f self :
  base_frequency in_key = Some f →
  key_release in_key self
  = match pressed_keys self !! in_key with
    | Some n =>
        Returns tt
          (set_pressed_keys (delete in_key (pressed_keys self))
             (set_releasing_keys
                (<[in_key := n]> (releasing_keys self)) self))
    | None => Raises KeyError self
    end.
Proof.
  intros Hf. unfold key_release. munfold.
  destruct (key_to_freq_cases in_key self) as [[-> _]|[[-> _]|(_ & _ & ->)]].
  - by destruct base_frequency_octave_keys as [? _]; simplify_eq.
  - by destruct base_frequency_octave_keys as [_ ?]; simplify_eq.
  - rewrite Hf. cbn. rewrite (base_frequency_nonzero _ _ Hf).
    destruct (pressed_keys self !! in_key) as [n|] eqn:Hk; cbn; [|done].
    rewrite Hk. cbn. by rewrite note_eta.
Qed.

Lemma key_release_other in_key self :
  base_frequency in_key = None →
  key_release in_key self = Returns tt (octave_shift in_key self).
Proof.
  intros Hf. unfold key_release, octave_shift. munfold.
  destruct (key_to_freq_cases in_key self)
    as [[-> ->]|[[-> ->]|(Hz & Hx & ->)]]; [done..|].
  rewrite Hf. cbn.
  destruct (String.eqb_spec in_key "z"); [done|].
  by destruct (String.eqb_spec in_key "x").
Qed.

Lemma key_press_state in_key self :
  state_after (key_press in_key self) = press_state in_key self.
Proof.
  unfold press_state. destruct (base_frequency in_key) as [f|] eqn:Hf.
  - by rewrite (key_press_note _ _ _ Hf).
  - by rewrite (key_press_other _ _ Hf).
Qed.

Lemma key_release_state in_key self :
  state_after (key_release in_key self) = release_state in_key self.
Proof.
  unfold release_state. destruct (base_frequency in_key) as [f|] eqn:Hf.
  - rewrite (key_release_note _ _ _ Hf).
    by destruct (pressed_keys self !! in_key).
  - by rewrite (key_release_other _ _ Hf).
Qed.

(** ** What the constructor establishes and every event preserves *)

Lemma Instrument_init_fields h a att rel sr size self :
  Instrument_init h a att rel sr size = inr self →
  a = Some (amps self) ∧ sr ≠ 0
  ∧ harmonics self = h
  ∧ n_attack_samples self
    = (if decide (rel * sr = 0) then 1
       else if decide (att * sr = 0) then 1 else att * sr)
  ∧ chunk_size self = size
  ∧ sample_rate self = sr
  ∧ time_offset self = 0
  ∧ buffer_time_lapse self = Qc_of_nat size / sr
  ∧ time_chunk self = np_linspace 0 (Qc_of_nat size / sr) size
  ∧ pressed_keys self = ∅
  ∧ releasing_keys self = ∅
  ∧ octave self = 1.
Proof.
  unfold Instrument_init. destruct a as [a|]; [|done]. cbn.
  destruct (decide (sr = 0)); [done|]. intros [= <-]. cbn.
  by repeat split.
Qed.

Lemma Instrument_init_n_attack_samples h a att rel sr size self :
  Instrument_init h a att rel sr size = inr self → n_attack_samples self ≠ 0.
Proof.
  intros (_ & _ & _ & -> & _)%Instrument_init_fields.
  by repeat case_decide.
Qed.

Lemma same_settings_trans s1 s2 s3 :
  same_settings s1 s2 → same_settings s2 s3 → same_settings s1 s3.
Proof. unfold same_settings. intuition congruence. Qed.

Lemma octave_shift_settings in_key self :
  same_settings self (octave_shift in_key self).
Proof.
  unfold octave_shift.
  by repeat (destruct (String.eqb in_key _)).
Qed.

Lemma press_state_settings in_key self :
  same_settings self (press_state in_key self).
Proof.
  unfold press_state. destruct (base_frequency in_key).
  - by destruct (py_bool _).
  - apply octave_shift_settings.
Qed.

Lemma release_state_settings in_key self :
  same_settings self (release_state in_key self).
Proof.
  unfold release_state. destruct (base_frequency in_key).
  - by destruct (pressed_keys self !! in_key).
  - apply octave_shift_settings.
Qed.

Lemma turn_state_settings self : same_settings self (turn_state self).
Proof. unfold turn_state. by destruct (idle self). Qed.

Section Invariants.

Variable np_sin : Qc → Qc.
Variable np_pi : Qc.

Lemma handle_state e self :
  n_attack_samples self ≠ 0 →
  handle np_sin np_pi e self
  = match e with
    | KeyPress k => press_state k self
    | KeyRelease k => release_state k self
    | Turn => turn_state self
    end.
Proof.
  intros Hn. destruct e.
  - apply key_press_state.
  - apply key_release_state.
  - by apply handle_turn.
Qed.

Lemma handle_settings e self :
  n_attack_samples self ≠ 0 →
  same_settings self (handle np_sin np_pi e self).
Proof.
  intros Hn. rewrite handle_state by done. destruct e.
  - apply press_state_settings.
  - apply release_state_settings.
  - apply turn_state_settings.
Qed.

(** Induction over the events received: a property that holds of an
    instrument whose [n_attack_samples] is not zero and that every event
    preserves holds after any sequence of events. *)
Lemma run_invariant (P : Instrument → Prop) es :
  (∀ s e, n_attack_samples s ≠ 0 → P s → P (handle np_sin np_pi e s)) →
  ∀ self, n_attack_samples self ≠ 0 → P self →
  n_attack_samples (run np_sin np_pi es self) ≠ 0
  ∧ P (run np_sin np_pi es self).
Proof.
  intros Hstep. induction es as [|e es IH]; intros self Hn HP; simpl.
  - done.
  - apply IH; [|by apply Hstep].
    destruct (handle_settings e self Hn) as (_ & _ & _ & -> & _). done.
Qed.

Lemma run_settings es self :
  n_attack_samples self ≠ 0 →
  same_settings self (run np_sin np_pi es self).
Proof.
  intros Hn.
  apply (run_invariant (same_settings self) es); [|done|done].
  intros s e Hs H. eapply same_settings_trans; [done|].
  by apply handle_settings.
Qed.

Lemma octave_shift_registries in_key self :
  pressed_keys (octave_shift in_key self) = pressed_keys self
  ∧ releasing_keys (octave_shift in_key self) = releasing_keys self.
Proof.
  unfold octave_shift.
  by repeat (destruct (String.eqb in_key _)).
Qed.

Lemma handle_note_keys_only e self :
  n_attack_samples self ≠ 0 →
  note_keys_only self → note_keys_only (handle np_sin np_pi e self).
Proof.
  intros Hn Hinv. rewrite handle_state by done. intros k.
  destruct e as [in_key|in_key|].
  - unfold press_state. destruct (base_frequency in_key) as [f|] eqn:Hf.
    + destruct (py_bool _); [|apply Hinv]. cbn.
      rewrite lookup_insert. case_decide; subst; [by rewrite Hf|apply Hinv].
    + destruct (octave_shift_registries in_key self) as [-> _]. apply Hinv.
  - unfold release_state. destruct (base_frequency in_key) as [f|] eqn:Hf.
    + destruct (pressed_keys self !! in_key); [|apply Hinv]. cbn.
      rewrite lookup_delete. case_decide; [by intros [? [=]]|apply Hinv].
    + destruct (octave_shift_registries in_key self) as [-> _]. apply Hinv.
  - rewrite turn_state_pressed, lookup_fmap, fmap_is_Some. apply Hinv.
Qed.

Lemma run_note_keys_only h a att rel sr size init es :
  Instrument_init h a att rel sr size = inr init →
  note_keys_only (run np_sin np_pi es init).
Proof.
  intros Hinit.
  apply (run_invariant note_keys_only es).
  - intros s e. apply handle_note_keys_only.
  - by eapply Instrument_init_n_attack_samples.
  - apply Instrument_init_fields in Hinit
      as (_ & _ & _ & _ & _ & _ & _ & _ & _ & Hp & _).
    intros k. rewrite Hp, lookup_empty. by intros [? [=]].
Qed.

End Invariants.

(** * The claims of the design document *)

(** ** Key events that resolve to no frequency *)

(** C1 (the code departs from the claim).  A key that resolves to no
    frequency makes [key_press] raise [TypeError]: the product of the octave
    with [None] is formed before the truth test.  The registries are
    untouched, and so is the whole instrument unless the key is ['z'] or
    ['x'], whose change of octave has already been made; but the call does
    not return normally. *)
Theorem key_press_unresolved_raises (self : Instrument) (in_key : string) :
  base_frequency in_key = None →
  ∃ self',
    key_press in_key self = Raises TypeError self'
    ∧ pressed_keys self' = pressed_keys self
    ∧ releasing_keys self' = releasing_keys self
    ∧ (in_key = "z" → self' = set_octave (octave self / 2) self)
    ∧ (in_key = "x" → self' = set_octave (octave self * 2) self)
    ∧ (in_key ≠ "z" → in_key ≠ "x" → self' = self).
Proof.
  intros Hf. rewrite (key_press_other _ _ Hf). eexists. split; [done|].
  destruct (octave_shift_registries in_key self) as [Hp Hr].
  split; [done|]. split; [done|]. unfold octave_shift.
  split; [by intros ->|]. split; [by intros ->|]. intros Hz Hx.
  destruct (String.eqb_spec in_key "z"); [done|].
  by destruct (String.eqb_spec in_key "x").
Qed.

Lemma key_press_unresolved_raises_witness :
  ∃ self,
    Instrument_init [1] (Some [1]) 1 1 (Qc_of_Z 4) 2 = inr self
    ∧ base_frequency "q" = None
    ∧ ∃ self',
        key_press "q" self = Raises TypeError self'
        ∧ pressed_keys self' = pressed_keys self
        ∧ releasing_keys self' = releasing_keys self
        ∧ ("q" = "z" → self' = set_octave (octave self / 2) self)
        ∧ ("q" = "x" → self' = set_octave (octave self * 2) self)
        ∧ ("q" ≠ "z" → "q" ≠ "x" → self' = self).
Proof.
  eexists. split; [reflexivity|].
  assert (Hf : base_frequency "q" = None) by reflexivity.
  split; [exact Hf|].
  exact (key_press_unresolved_raises _ "q" Hf).
Defined.

(** C2, as stated, fails: on a new instrument, releasing the note key
    ['a'], which is not pressed, raises [KeyError]. *)
Lemma key_release_absent_counterexample :
  ∃ self,
    Instrument_init [1] (Some [1]) 1 1 (Qc_of_Z 4) 2 = inr self
    ∧ is_Some (base_frequency "a")
    ∧ pressed_keys self !! "a" = None
    ∧ raised (key_release "a" self) = Some KeyError.
Proof.
  eexists. split; [reflexivity|].
  split; [by eexists|]. split; [done|]. by vm_compute.
Qed.

(** C2 (amended).  For a note key that is not in [pressed_keys],
    [key_release] raises [KeyError] and leaves the whole instrument, both
    registries included, as it was. *)
Theorem key_release_absent_raises (self : Instrument) (in_key : string) :
  is_Some (base_frequency in_key) →
  pressed_keys self !! in_key = None →
  key_release in_key self = Raises KeyError self.
Proof.
  intros [f Hf] Hk. rewrite (key_release_note _ _ _ Hf). by rewrite Hk.
Qed.

Lemma key_release_absent_raises_witness :
  ∃ self,
    Instrument_init [1] (Some [1]) 1 1 (Qc_of_Z 4) 2 = inr self
    ∧ is_Some (base_frequency "a")
    ∧ pressed_keys self !! "a" = None
    ∧ key_release "a" self = Raises KeyError self.
Proof.
  eexists. split; [reflexivity|].
  assert (Hf : is_Some (base_frequency "a")) by (by eexists).
  split; [exact Hf|]. split; [reflexivity|].
  apply (key_release_absent_raises _ "a" Hf). reflexivity.
Defined.

(** ** Construction *)

(** C7 (the code departs from the claim).  Given a list of weights,
    construction succeeds whenever the sample rate is not zero, whatever
    the lengths of the two sequences: the instrument keeps both as
    given. *)
Theorem Instrument_init_accepts_length_mismatch
    (h a : list Qc) (att rel sr : Qc) (size : nat) :
  sr ≠ 0 →
  ∃ self,
    Instrument_init h (Some a) att rel sr size = inr self
    ∧ harmonics self = h
    ∧ amps self = a.
Proof.
  intros Hsr. unfold Instrument_init. cbn.
  rewrite decide_False by done. by eexists.
Qed.

Lemma Instrument_init_accepts_length_mismatch_witness :
  Qc_of_Z 4 ≠ 0
  ∧ length [1; 2] ≠ length [1]
  ∧ ∃ self,
      Instrument_init [1; 2] (Some [1]) 1 1 (Qc_of_Z 4) 2 = inr self
      ∧ harmonics self = [1; 2]
      ∧ amps self = [1].
Proof.
  assert (Hsr : Qc_of_Z 4 ≠ 0) by by_compute.
  split; [exact Hsr|]. split; [simpl; lia|].
  exact (Instrument_init_accepts_length_mismatch [1; 2] [1] 1 1 (Qc_of_Z 4) 2
           Hsr).
Defined.

(** ** Key release of a pressed key *)

Section ReleaseOfPressedKey.

Variable np_sin : Qc → Qc.
Variable np_pi : Qc.

(** C8.  In any state the instrument reaches from construction, releasing a
    key that is in [pressed_keys] returns normally, files under that key in
    [releasing_keys] a note with the fundamental and the amplitude the
    pressed note had, and takes the key out of [pressed_keys]. *)
Theorem key_release_carries_note h a att rel sr size init es in_key n :
  Instrument_init h a att rel sr size = inr init →
  pressed_keys (run np_sin np_pi es init) !! in_key = Some n →
  ∃ self',
    key_release in_key (run np_sin np_pi es init) = Returns tt self'
    ∧ releasing_keys self' !! in_key = Some n
    ∧ pressed_keys self' !! in_key = None.
Proof.
  intros Hinit Hk.
  destruct (run_note_keys_only np_sin np_pi _ _ _ _ _ _ _ es Hinit in_key)
    as [f Hf]; [by eexists|].
  rewrite (key_release_note _ _ _ Hf), Hk. eexists. split; [done|].
  cbn. by rewrite lookup_insert_eq, lookup_delete_eq.
Qed.

End ReleaseOfPressedKey.

Lemma key_release_carries_note_witness :
  ∃ init n,
    Instrument_init [1] (Some [1]) 1 1 (Qc_of_Z 4) 2 = inr init
    ∧ pressed_keys (run taylor_sin approx_pi [KeyPress "a"; Turn] init) !! "a"
      = Some n
    ∧ amp n = 1 / 2
    ∧ ∃ self',
        key_release "a" (run taylor_sin approx_pi [KeyPress "a"; Turn] init)
        = Returns tt self'
        ∧ releasing_keys self' !! "a" = Some n
        ∧ pressed_keys self' !! "a" = None.
Proof.
  eexists _, (mkNote (1 * Q2Qc 261.63) (1 / 2)).
  split; [reflexivity|].
  assert (Hk : pressed_keys
                 (run taylor_sin approx_pi [KeyPress "a"; Turn]
                    (mkInstrument [1] [1] 1 (1 * Qc_of_Z 4) 1 (1 * Qc_of_Z 4)
                       (Qc_of_Z 4) 2 0 (Qc_of_nat 2 / Qc_of_Z 4)
                       (np_linspace 0 (Qc_of_nat 2 / Qc_of_Z 4) 2) ∅ ∅ 1))
               !! "a" = Some (mkNote (1 * Q2Qc 261.63) (1 / 2)))
    by by_compute.
  split; [exact Hk|]. split; [reflexivity|].
  exact (key_release_carries_note taylor_sin approx_pi
           [1] (Some [1]) 1 1 (Qc_of_Z 4) 2 _
           [KeyPress "a"; Turn] "a" _ eq_refl Hk).
Defined.

(** ** Octave keys on release *)


Lemma run_as_state np_sin np_pi es : ∀ self,
  n_attack_samples self ≠ 0 →
  run np_sin np_pi es self = run_state es self.
Proof.
  induction es as [|e es IH]; intros self Hn; simpl; [done|].
  destruct (handle_settings np_sin np_pi e self Hn) as (_ & _ & _ & H & _).
  rewrite IH by (by rewrite H). by rewrite handle_state.
Qed.

(** ** Arithmetic on canonical rationals *)

Lemma Qc_eq_Q (x y : Qc) : x = y ↔ (this x == this y)%Q.
Proof. split; [by intros ->|apply Qc_is_canon]. Qed.

(** Linear goals over [Qc], sent to [lra] over [Q]. *)
Ltac qc_lra :=
  repeat match goal with
  | H : @eq Qc _ _ |- _ => apply Qc_eq_Q in H
  | H : ¬ @eq Qc _ _ |- _ => rewrite Qc_eq_Q in H
  | |- @eq Qc _ _ => apply Qc_eq_Q
  | |- ¬ @eq Qc _ _ => rewrite Qc_eq_Q
  end;
  unfold Qcle, Qclt, Qcminus, Qcplus, Qcmult, Qcopp, Q2Qc in *;
  cbn [this] in *;
  rewrite ?Qred_correct in *;
  lra.

Lemma Qc_of_nat_pos n : (0 < n)%nat → 0 < Qc_of_nat n.
Proof.
  intros Hn. unfold Qc_of_nat, Qc_of_Z, Qclt, Q2Qc. cbn [this].
  rewrite Qred_correct. unfold Qlt. cbn. lia.
Qed.

Lemma Qc_of_nat_0 : Qc_of_nat 0 = 0.
Proof. apply Z2Qc_inj_0. Qed.

Lemma Qc_of_nat_S n : Qc_of_nat (S n) = Qc_of_nat n + 1.
Proof.
  unfold Qc_of_nat. rewrite Nat2Z.inj_succ, <- Z.add_1_r.
  by rewrite Z2Qc_inj_add, Z2Qc_inj_1.
Qed.

Lemma Qc_pos_nonzero (x : Qc) : 0 < x → x ≠ 0.
Proof. intros H. qc_lra. Qed.


Lemma Qcdiv_pos (x y : Qc) : 0 < x → 0 < y → 0 < x / y.
Proof. intros Hx Hy. apply Qcmult_pos_pos; [done|by apply Qcinv_pos]. Qed.

(** ** The release ramp *)

(** One turn of the loop takes [chunk_size / n_attack_samples] from the
    amplitude of a releasing note that is still positive. *)
Lemma turn_release_step self k n :
  releasing_keys self !! k = Some n → 0 < amp n →
  releasing_keys (turn_state self) !! k
  = Some (mkNote (fundamental n)
            (amp n - Qc_of_nat (chunk_size self) / n_attack_samples self)).
Proof.
  intros Hk Hpos. rewrite turn_state_releasing, lookup_omap, Hk. cbn.
  unfold release_note. by rewrite bool_decide_true.
Qed.

Section ReleaseRamp.

Variable np_sin : Qc → Qc.
Variable np_pi : Qc.

(** C3 (the code departs from the claim).  One turn of the loop takes
    [chunk_size / n_attack_samples] from the amplitude of a releasing note
    that is still positive: the step comes from the attack sample count,
    and [n_release_samples] plays no part in it. *)
Theorem release_step_uses_attack_samples self k n :
  n_attack_samples self ≠ 0 →
  releasing_keys self !! k = Some n →
  0 < amp n →
  releasing_keys (handle np_sin np_pi Turn self) !! k
  = Some (mkNote (fundamental n)
            (amp n - Qc_of_nat (chunk_size self) / n_attack_samples self)).
Proof.
  intros Hn Hk Hpos. rewrite handle_state by done.
  by apply turn_release_step.
Qed.

End ReleaseRamp.

(** Attack 1 s, release 2 s, 4 samples per second, buffers of 2 samples:
    ['a'] is held for two turns and released at amplitude 1.  The next turn
    leaves amplitude [1/2], a step of [2/4], where the release duration
    would give [chunk_size / n_release_samples = 2/8]. *)
Lemma release_step_uses_attack_samples_witness :
  ∃ init self n,
    Instrument_init [1] (Some [1]) 1 2 (Qc_of_Z 4) 2 = inr init
    ∧ self = run taylor_sin approx_pi
               [KeyPress "a"; Turn; Turn; KeyRelease "a"] init
    ∧ n_attack_samples self ≠ 0
    ∧ releasing_keys self !! "a" = Some n
    ∧ amp n = 1
    ∧ 0 < amp n
    ∧ Qc_of_nat (chunk_size self) / n_attack_samples self = 1 / 2
    ∧ Qc_of_nat (chunk_size self) / n_release_samples self = 1 / Qc_of_Z 4
    ∧ releasing_keys (handle taylor_sin approx_pi Turn self) !! "a"
      = Some (mkNote (fundamental n)
                (amp n - Qc_of_nat (chunk_size self) / n_attack_samples self)).
Proof.
  eexists _, _, (mkNote (1 * Q2Qc 261.63) 1).
  split; [reflexivity|]. split; [reflexivity|].
  match goal with |- n_attack_samples ?s ≠ 0 ∧ _ => set (self := s) end.
  assert (Hn : n_attack_samples self ≠ 0) by by_compute.
  assert (Hk : releasing_keys self !! "a"
               = Some (mkNote (1 * Q2Qc 261.63) 1)) by by_compute.
  assert (Hpos : 0 < amp (mkNote (1 * Q2Qc 261.63) 1)) by by_compute.
  split; [exact Hn|]. split; [exact Hk|]. split; [reflexivity|].
  split; [exact Hpos|]. split; [by_compute|]. split; [by_compute|].
  exact (release_step_uses_attack_samples taylor_sin approx_pi self "a" _
           Hn Hk Hpos).
Defined.

(** ** Bounds on the stored amplitudes *)

(** C4, as stated, fails.  Attack 1 s at 4 samples per second, buffers of 3
    samples (a step of [3/4]): ['a'] is held until its amplitude is 1 and
    released; two turns later the note is still in [releasing_keys], with
    amplitude [-1/2]. *)
Lemma amplitude_bounds_counterexample :
  ∃ self n,
    Instrument_init [1] (Some [1]) 1 1 (Qc_of_Z 4) 3 = inr self
    ∧ releasing_keys
        (run taylor_sin approx_pi
           [KeyPress "a"; Turn; Turn; KeyRelease "a"; Turn; Turn] self)
      !! "a" = Some n
    ∧ amp n = - (1 / 2)
    ∧ ¬ (0 ≤ amp n).
Proof.
  eexists _, (mkNote (1 * Q2Qc 261.63) (- (1 / 2))).
  split; [reflexivity|]. split; [by_compute|]. split; [done|by_compute].
Qed.

Lemma attack_note_bounded d n :
  0 < d → 0 ≤ amp n ∧ amp n ≤ 1 →
  0 ≤ amp (attack_note d n) ∧ amp (attack_note d n) ≤ 1.
Proof.
  intros Hd [H0 H1]. unfold attack_note.
  case_bool_decide; [|done]. cbn.
  case_bool_decide; split; qc_lra.
Qed.

Lemma release_note_bounded d n n' :
  0 < d → - d < amp n ∧ amp n ≤ 1 → release_note d n = Some n' →
  - d < amp n' ∧ amp n' ≤ 1.
Proof.
  intros Hd [H0 H1]. unfold release_note.
  case_bool_decide; [|done]. intros [= <-]. cbn. split; qc_lra.
Qed.

Lemma event_state_amplitudes_bounded d e self :
  0 < d → envelope_step self = d →
  amplitudes_bounded d self → amplitudes_bounded d (event_state e self).
Proof.
  intros Hd Hstep [Hp Hr]. destruct e as [in_key|in_key|]; simpl.
  - unfold press_state. destruct (base_frequency in_key).
    + destruct (py_bool _); [|done]. split; [|done]. cbn. intros k n.
      rewrite lookup_insert. case_decide; [|apply Hp].
      intros [= <-]. cbn. split; qc_lra.
    + by destruct (octave_shift_registries in_key self) as [Hp' Hr'];
        split; rewrite ?Hp', ?Hr'.
  - unfold release_state. destruct (base_frequency in_key).
    + destruct (pressed_keys self !! in_key) as [n0|] eqn:Hk; [|done].
      split; cbn; intros k n.
      * rewrite lookup_delete. case_decide; [done|apply Hp].
      * rewrite lookup_insert. case_decide; [|apply Hr].
        intros [= <-]. destruct (Hp _ _ Hk). split; qc_lra.
    + by destruct (octave_shift_registries in_key self) as [Hp' Hr'];
        split; rewrite ?Hp', ?Hr'.
  - split; intros k n.
    + rewrite turn_state_pressed, lookup_fmap, Hstep.
      destruct (pressed_keys self !! k) as [n0|] eqn:Hk; [|done].
      intros [= <-]. apply attack_note_bounded; [done|by eapply Hp].
    + rewrite turn_state_releasing, lookup_omap, Hstep.
      destruct (releasing_keys self !! k) as [n0|] eqn:Hk; [|done].
      cbn. intros Hn. eapply release_note_bounded; [done| |done].
      by eapply Hr.
Qed.

Lemma same_settings_envelope_step s s' :
  same_settings s s' → envelope_step s' = envelope_step s.
Proof.
  intros (_ & _ & _ & Hn & _ & _ & _ & Hc & _).
  unfold envelope_step. by rewrite Hn, Hc.
Qed.

(** The constructor gives a positive step when the attack is not negative
    and the sample rate and the buffer length are positive. *)
Lemma Instrument_init_envelope_step h a att rel sr size self :
  0 ≤ att → 0 < sr → (0 < size)%nat →
  Instrument_init h a att rel sr size = inr self →
  0 < n_attack_samples self ∧ 0 < envelope_step self.
Proof.
  intros Hatt Hsr Hsize Hinit.
  apply Instrument_init_fields in Hinit
    as (_ & _ & _ & Hn & Hc & _).
  assert (Hpos : 0 < n_attack_samples self).
  { rewrite Hn. repeat case_decide; [done..|].
    assert (0 ≤ att * sr) by (apply Qcmult_nonneg_nonneg; [done|qc_lra]).
    qc_lra. }
  split; [done|]. unfold envelope_step. rewrite Hc.
  apply Qcdiv_pos; [by apply Qc_of_nat_pos|done].
Qed.

Section AmplitudeBounds.

Variable np_sin : Qc → Qc.
Variable np_pi : Qc.

(** C4 (amended).  For an instrument constructed with a non-negative
    attack, a positive sample rate and a positive buffer length, after any
    sequence of key presses, key releases and turns of the audio loop, a
    pressed note has its amplitude in [[0, 1]] and a releasing note has its
    amplitude in [(-d, 1]], with [d = chunk_size / n_attack_samples] the
    step of the envelope. *)
Theorem amplitude_bounds h a att rel sr size init es k n :
  0 ≤ att → 0 < sr → (0 < size)%nat →
  Instrument_init h a att rel sr size = inr init →
  (pressed_keys (run np_sin np_pi es init) !! k = Some n →
   0 ≤ amp n ∧ amp n ≤ 1)
  ∧ (releasing_keys (run np_sin np_pi es init) !! k = Some n →
     - envelope_step init < amp n ∧ amp n ≤ 1).
Proof.
  intros Hatt Hsr Hsize Hinit.
  destruct (Instrument_init_envelope_step _ _ _ _ _ _ _ Hatt Hsr Hsize Hinit)
    as [Hn Hd].
  assert (Hn0 : n_attack_samples init ≠ 0) by qc_lra.
  destruct (run_invariant np_sin np_pi
              (λ s, envelope_step s = envelope_step init
                    ∧ amplitudes_bounded (envelope_step init) s) es)
    with (self := init) as (_ & _ & Hp & Hr).
  - intros s e Hs [Hstep Hb]. split.
    + rewrite (same_settings_envelope_step s) by (by apply handle_settings).
      done.
    + rewrite handle_state by done.
      by apply event_state_amplitudes_bounded.
  - done.
  - split; [done|].
    apply Instrument_init_fields in Hinit
      as (_ & _ & _ & _ & _ & _ & _ & _ & _ & Hp & Hr & _).
    split; intros k' n'; rewrite ?Hp, ?Hr, lookup_empty; done.
  - split; [apply Hp|apply Hr].
Qed.

End AmplitudeBounds.

Lemma amplitude_bounds_witness :
  ∃ init,
    0 ≤ 1 ∧ 0 < Qc_of_Z 4 ∧ (0 < 3)%nat
    ∧ Instrument_init [1] (Some [1]) 1 1 (Qc_of_Z 4) 3 = inr init
    ∧ ∀ n,
        (pressed_keys
           (run taylor_sin approx_pi
              [KeyPress "a"; Turn; Turn; KeyRelease "a"; Turn; Turn] init)
         !! "a" = Some n →
         0 ≤ amp n ∧ amp n ≤ 1)
        ∧ (releasing_keys
             (run taylor_sin approx_pi
                [KeyPress "a"; Turn; Turn; KeyRelease "a"; Turn; Turn] init)
           !! "a" = Some n →
           - envelope_step init < amp n ∧ amp n ≤ 1).
Proof.
  eexists.
  assert (H1 : 0 ≤ 1) by by_compute.
  assert (H2 : 0 < Qc_of_Z 4) by by_compute.
  assert (H3 : (0 < 3)%nat) by lia.
  split; [exact H1|]. split; [exact H2|]. split; [exact H3|].
  split; [reflexivity|]. intros n.
  exact (amplitude_bounds taylor_sin approx_pi [1] (Some [1]) 1 1 (Qc_of_Z 4)
           3 _ [KeyPress "a"; Turn; Turn; KeyRelease "a"; Turn; Turn] "a" n
           H1 H2 H3 eq_refl).
Defined.

(** ** Removal of a releasing note *)

(** C5, as stated, fails.  With a step of [1/2], ['a'] is released at
    amplitude [1/2].  The next turn computes amplitude [0], the first one
    not above zero, and the note is still in [releasing_keys] after that
    turn; it is the turn after that deletes it. *)
Lemma release_removal_counterexample :
  ∃ self n,
    Instrument_init [1] (Some [1]) 1 1 (Qc_of_Z 4) 2 = inr self
    ∧ releasing_keys
        (run taylor_sin approx_pi [KeyPress "a"; Turn; KeyRelease "a"] self)
      !! "a" = Some n
    ∧ 0 < amp n
    ∧ amp n - envelope_step self ≤ 0
    ∧ is_Some
        (releasing_keys
           (run taylor_sin approx_pi
              [KeyPress "a"; Turn; KeyRelease "a"; Turn] self) !! "a")
    ∧ releasing_keys
        (run taylor_sin approx_pi
           [KeyPress "a"; Turn; KeyRelease "a"; Turn; Turn] self) !! "a"
      = None.
Proof.
  eexists _, (mkNote (1 * Q2Qc 261.63) (1 / 2)).
  split; [reflexivity|]. repeat split; by_compute.
Qed.


Lemma event_state_settings e self : same_settings self (event_state e self).
Proof.
  destruct e.
  - apply press_state_settings.
  - apply release_state_settings.
  - apply turn_state_settings.
Qed.


Lemma Qc_of_nat_nonneg n : 0 ≤ Qc_of_nat n.
Proof.
  rewrite <- Z2Qc_inj_0. unfold Qc_of_nat, Qcle.
  cbn [this Qc_of_Z]. rewrite <- Zle_Qle. lia.
Qed.

Lemma envelope_step_nonneg self :
  0 < n_attack_samples self → 0 ≤ envelope_step self.
Proof.
  intros Hn. unfold envelope_step.
  apply Qcmult_nonneg_nonneg; [apply Qc_of_nat_nonneg|].
  by apply Qclt_le_weak, Qcinv_pos.
Qed.

(** Only a release of key [k] and the turns of the loop touch what is
    filed under [k] in [releasing_keys]. *)
Lemma event_state_releasing_other k e self :
  e ≠ KeyRelease k → e ≠ Turn →
  releasing_keys (event_state e self) !! k = releasing_keys self !! k.
Proof.
  intros Hk Ht. destruct e as [k'|k'|]; simpl; [| |done].
  - unfold press_state. destruct (base_frequency k') as [f|].
    + by destruct (py_bool _).
    + by destruct (octave_shift_registries k' self) as [_ ->].
  - unfold release_state. destruct (base_frequency k') as [f|].
    + destruct (pressed_keys self !! k'); [|done]. cbn.
      rewrite lookup_insert_ne; [done|]. by intros ->.
    + by destruct (octave_shift_registries k' self) as [_ ->].
Qed.

(** Until key [k] is released again, a note found under [k] in
    [releasing_keys] is the one that was there before, with its
    fundamental, at an amplitude that has not grown. *)
Lemma release_trajectory k es : ∀ self n',
  0 ≤ envelope_step self →
  Forall (λ e, e ≠ KeyRelease k) es →
  releasing_keys (run_state es self) !! k = Some n' →
  ∃ n, releasing_keys self !! k = Some n
       ∧ fundamental n' = fundamental n ∧ amp n' ≤ amp n.
Proof.
  induction es as [|e es IH]; intros self n' Hd Hes Hk; simpl in Hk.
  - exists n'. split; [done|]. split; [done|]. apply Qcle_refl.
  - apply Forall_cons_1 in Hes as [He Hes].
    destruct (IH (event_state e self) n') as (n1 & Hk1 & Hf1 & Ha1);
      [|done|done|].
    { by rewrite (same_settings_envelope_step self)
        by apply event_state_settings. }
    destruct e as [k'|k'|].
    + rewrite event_state_releasing_other in Hk1 by done. by exists n1.
    + rewrite event_state_releasing_other in Hk1 by done. by exists n1.
    + simpl in Hk1. rewrite turn_state_releasing, lookup_omap in Hk1.
      destruct (releasing_keys self !! k) as [n|] eqn:Hk0; [|done].
      cbn in Hk1. unfold release_note in Hk1.
      case_bool_decide; [|done]. injection Hk1 as <-. cbn in *.
      exists n. split; [done|]. split; [done|]. qc_lra.
Qed.

Section ReleaseRemoval.

Variable np_sin : Qc → Qc.
Variable np_pi : Qc.

(** C5 (amended).  On an instrument whose [n_attack_samples] is positive,
    with [d = chunk_size / n_attack_samples]: a turn keeps a releasing
    note whose stored amplitude [a] is above zero and stores [a - d], also
    when [a - d] is not above zero; a turn deletes a note whose stored
    amplitude is not above zero.  So the turn that first computes an
    amplitude not above zero leaves the note in [releasing_keys], and it is
    the next turn that deletes it.  Until the key is released again,
    whatever other events arrive, a note found under the key is the same
    note at an amplitude no larger than before, and a deleted note does not
    come back. *)
Theorem release_removal self k es :
  0 < n_attack_samples self →
  Forall (λ e, e ≠ KeyRelease k) es →
  (∀ n, releasing_keys self !! k = Some n →
     (0 < amp n →
      releasing_keys (run np_sin np_pi [Turn] self) !! k
      = Some (mkNote (fundamental n) (amp n - envelope_step self)))
     ∧ (amp n ≤ 0 →
        releasing_keys (run np_sin np_pi [Turn] self) !! k = None)
     ∧ (0 < amp n → amp n - envelope_step self ≤ 0 →
        releasing_keys (run np_sin np_pi [Turn; Turn] self) !! k = None))
  ∧ (∀ n', releasing_keys (run np_sin np_pi es self) !! k = Some n' →
       ∃ n, releasing_keys self !! k = Some n
            ∧ fundamental n' = fundamental n ∧ amp n' ≤ amp n).
Proof.
  intros Hn Hes.
  pose proof (Qc_pos_nonzero _ Hn) as Hn0.
  rewrite !run_as_state by done. split.
  - intros n Hk.
    assert (Hone : releasing_keys (turn_state self) !! k
                   = release_note (envelope_step self) n).
    { by rewrite turn_state_releasing, lookup_omap, Hk. }
    change (run_state [Turn] self) with (turn_state self).
    change (run_state [Turn; Turn] self)
      with (turn_state (turn_state self)).
    split; [|split].
    + intros Ha. rewrite Hone. unfold release_note.
      by rewrite bool_decide_true.
    + intros Ha. rewrite Hone. unfold release_note.
      rewrite bool_decide_false; [done|]. by apply Qcle_ngt.
    + intros Ha Hend. rewrite turn_state_releasing, lookup_omap, Hone.
      rewrite (same_settings_envelope_step self)
        by apply turn_state_settings.
      unfold release_note. rewrite bool_decide_true by done. cbn.
      rewrite bool_decide_false; [done|]. by apply Qcle_ngt.
  - intros n'. apply release_trajectory; [|done].
    by apply envelope_step_nonneg.
Qed.

End ReleaseRemoval.

(** The scenario of the counterexample: ['a'] is released at amplitude
    [1/2] with a step of [1/2]; a press of another key and a turn later,
    the note is still filed, at amplitude 0. *)
Lemma release_removal_witness :
  ∃ init self,
    Instrument_init [1] (Some [1]) 1 1 (Qc_of_Z 4) 2 = inr init
    ∧ self = run taylor_sin approx_pi [KeyPress "a"; Turn; KeyRelease "a"] init
    ∧ 0 < n_attack_samples self
    ∧ Forall (λ e, e ≠ KeyRelease "a") [KeyPress "s"; Turn]
    ∧ releasing_keys self !! "a" = Some (mkNote (1 * Q2Qc 261.63) (1 / 2))
    ∧ amp <$> releasing_keys
                (run taylor_sin approx_pi [KeyPress "s"; Turn] self) !! "a"
      = Some 0
    ∧ (∀ n, releasing_keys self !! "a" = Some n →
         (0 < amp n →
          releasing_keys (run taylor_sin approx_pi [Turn] self) !! "a"
          = Some (mkNote (fundamental n) (amp n - envelope_step self)))
         ∧ (amp n ≤ 0 →
            releasing_keys (run taylor_sin approx_pi [Turn] self) !! "a"
            = None)
         ∧ (0 < amp n → amp n - envelope_step self ≤ 0 →
            releasing_keys (run taylor_sin approx_pi [Turn; Turn] self) !! "a"
            = None))
    ∧ (∀ n',
         releasing_keys (run taylor_sin approx_pi [KeyPress "s"; Turn] self)
         !! "a" = Some n' →
         ∃ n, releasing_keys self !! "a" = Some n
              ∧ fundamental n' = fundamental n ∧ amp n' ≤ amp n).
Proof.
  eexists _, _. split; [reflexivity|]. split; [reflexivity|].
  match goal with |- 0 < n_attack_samples ?s ∧ _ => set (self := s) end.
  assert (Hn : 0 < n_attack_samples self) by by_compute.
  assert (Hes : Forall (λ e, e ≠ KeyRelease "a") [KeyPress "s"; Turn])
    by (by repeat constructor).
  split; [exact Hn|]. split; [exact Hes|].
  split; [by_compute|]. split; [by_compute|].
  exact (release_removal taylor_sin approx_pi self "a" [KeyPress "s"; Turn]
           Hn Hes).
Defined.

(** ** Length of the attack ramp *)





Lemma Qc_of_nat_add n m : Qc_of_nat (n + m) = Qc_of_nat n + Qc_of_nat m.
Proof. unfold Qc_of_nat. by rewrite Nat2Z.inj_add, Z2Qc_inj_add. Qed.

Lemma Qc_of_nat_ge_1 n : (0 < n)%nat → 1 ≤ Qc_of_nat n.
Proof.
  intros Hn. rewrite <- Z2Qc_inj_1. unfold Qc_of_nat, Qcle.
  cbn [this Qc_of_Z]. rewrite <- Zle_Qle. lia.
Qed.



Section AttackRamp.

Variable np_sin : Qc → Qc.
Variable np_pi : Qc.


End AttackRamp.


(** ** Phase continuity of a sustained note *)

Lemma np_add_zeros_l (l : list Qc) n :
  length l = n → np_add (np_zeros n) l = l.
Proof.
  intros <-. unfold np_add, np_zeros.
  induction l as [|x l IH]; simpl; [done|].
  rewrite IH. f_equal. ring.
Qed.

Lemma np_add_zeros_r (l : list Qc) n :
  length l = n → np_add l (np_zeros n) = l.
Proof.
  intros <-. unfold np_add, np_zeros.
  induction l as [|x l IH]; simpl; [done|].
  rewrite IH. f_equal. ring.
Qed.

Lemma np_zeros_as_map {A} (l : list A) :
  np_zeros (length l) = map (λ _, 0) l.
Proof. unfold np_zeros. induction l; simpl; by f_equal. Qed.

Lemma np_add_map {A} (g g' : A → Qc) (l : list A) :
  np_add (map g l) (map g' l) = map (λ x, g x + g' x) l.
Proof. unfold np_add. induction l; simpl; by f_equal. Qed.

Lemma length_np_linspace start stop num :
  length (np_linspace start stop num) = num.
Proof. unfold np_linspace. by rewrite length_map, length_seq. Qed.

Lemma Qc_of_nat_mul n m : Qc_of_nat (n * m) = Qc_of_nat n * Qc_of_nat m.
Proof. unfold Qc_of_nat. by rewrite Nat2Z.inj_mul, Z2Qc_inj_mul. Qed.

Section PhaseContinuity.

Variable np_sin : Qc → Qc.
Variable np_pi : Qc.

Lemma fold_harmonics {A} (pairs : list (Qc * Qc)) (times : list A) :
  ∀ (at_ : A → Qc) (g : A → Qc),
    fold_left
      (λ chunk fa, np_add chunk (harmonic_wave np_sin np_pi (map at_ times)
                                   fa.1 fa.2))
      pairs (map g times)
    = map (λ x, fold_left
                  (λ acc fa, acc + fa.2 * np_sin (2 * np_pi * fa.1 * at_ x))
                  pairs (g x))
        times.
Proof.
  induction pairs as [|[f a] pairs IH]; intros at_ g; simpl; [done|].
  rewrite <- (IH at_ (λ x, g x + a * np_sin (2 * np_pi * f * at_ x))).
  f_equal. unfold harmonic_wave. by rewrite map_map, np_add_map.
Qed.

Lemma sound_chunk_closed_form fund self :
  length (time_chunk self) = chunk_size self →
  fold_left
    (λ chunk fa,
       np_add chunk
         (harmonic_wave np_sin np_pi
            (map (λ t, t + time_offset self) (time_chunk self)) fa.1 fa.2))
    (zip (map (Qcmult fund) (harmonics self)) (amps self))
    (np_zeros (chunk_size self))
  = map (λ t, closed_form_wave np_sin np_pi (harmonics self) (amps self) fund
                (t + time_offset self))
      (time_chunk self).
Proof.
  intros Hlen. rewrite <- Hlen, np_zeros_as_map. apply fold_harmonics.
Qed.

(** One turn with a single pressed note at amplitude 1 and nothing
    releasing writes the raw buffer of that note and advances the
    offset. *)
Lemma emit_sound_turn_sustained self k f :
  pressed_keys self = {[k := mkNote f 1]} →
  releasing_keys self = ∅ →
  length (time_chunk self) = chunk_size self →
  ¬ (Qc_of_Z 360 < time_offset self + buffer_time_lapse self) →
  emit_sound_turn np_sin np_pi self
  = Returns
      (Some (map (λ t, closed_form_wave np_sin np_pi (harmonics self) (amps self) f
                         (t + time_offset self))
               (time_chunk self)))
      (set_time_offset (time_offset self + buffer_time_lapse self) self).
Proof.
  intros Hp Hr Hlen Hwrap.
  assert (Hbody : pressed_body np_sin np_pi k (np_zeros (chunk_size self)) self
                  = Returns
                      (map (λ t, closed_form_wave np_sin np_pi (harmonics self) (amps self)
                                   f (t + time_offset self))
                         (time_chunk self))
                      self).
  { unfold pressed_body. munfold. rewrite Hp, lookup_singleton_eq. cbn.
    rewrite bool_decide_false by by_compute. cbn.
    rewrite sound_chunk_closed_form by done.
    by rewrite np_add_zeros_l by (by rewrite length_map). }
  unfold emit_sound_turn, _generate_pressed_sound, _generate_releasing_sound.
  munfold.
  rewrite (bool_decide_false (pressed_keys self = ∅))
    by (rewrite Hp; apply map_non_empty_singleton).
  cbn. rewrite Hp, map_to_list_singleton. cbn.
  unfold mbind, M_bind, mret, M_ret. rewrite Hbody.
  rewrite Hr, map_to_list_empty. cbn.
  rewrite bool_decide_false by done.
  rewrite np_add_zeros_r by (by rewrite length_map).
  by rewrite np_add_zeros_l by (by rewrite length_map).
Qed.

Lemma length_sustained_buffers wave times lapse turns : ∀ offset,
  length (sustained_buffers wave times lapse turns offset) = turns.
Proof. induction turns; intros; simpl; by f_equal. Qed.

Lemma emit_sound_sustained k f turns : ∀ self,
  pressed_keys self = {[k := mkNote f 1]} →
  releasing_keys self = ∅ →
  length (time_chunk self) = chunk_size self →
  (∀ j, (1 ≤ j ≤ turns)%nat →
     time_offset self + Qc_of_nat j * buffer_time_lapse self ≤ Qc_of_Z 360) →
  ∃ self',
    emit_sound np_sin np_pi turns self
    = Returns
        (sustained_buffers
           (closed_form_wave np_sin np_pi (harmonics self) (amps self) f)
           (time_chunk self) (buffer_time_lapse self) turns
           (time_offset self))
        self'.
Proof.
  induction turns as [|turns IH]; intros self Hp Hr Hlen Hwrap; simpl.
  - by eexists.
  - unfold mbind, M_bind.
    rewrite (emit_sound_turn_sustained self k f Hp Hr Hlen).
    + destruct (IH (set_time_offset
                      (time_offset self + buffer_time_lapse self) self))
        as [self' ->]; [done..| |by eexists].
      intros j Hj. cbn. specialize (Hwrap (S j) ltac:(lia)).
      rewrite Qc_of_nat_S in Hwrap.
      replace (time_offset self + buffer_time_lapse self
               + Qc_of_nat j * buffer_time_lapse self)
        with (time_offset self
              + (Qc_of_nat j + 1) * buffer_time_lapse self) by ring.
      done.
    + apply Qcle_ngt. specialize (Hwrap 1%nat ltac:(lia)).
      rewrite Qc_of_nat_S, Qc_of_nat_0 in Hwrap.
      replace (time_offset self + buffer_time_lapse self)
        with (time_offset self + (0 + 1) * buffer_time_lapse self) by ring.
      done.
Qed.

(** [np.linspace(0, turns * lapse, turns * size)] has the step of
    [np.linspace(0, lapse, size)]. *)
Lemma np_linspace_grid lapse size turns :
  (0 < size)%nat →
  np_linspace 0 (Qc_of_nat turns * lapse) (turns * size)
  = map (λ m, Qc_of_nat m * (lapse / Qc_of_nat size)) (seq 0 (turns * size)).
Proof.
  intros Hsize. destruct turns as [|turns]; [done|].
  pose proof (Qc_pos_nonzero _ (Qc_of_nat_pos size Hsize)).
  pose proof (Qc_pos_nonzero _ (Qc_of_nat_pos (S turns) ltac:(lia))).
  unfold np_linspace. apply map_ext. intros m.
  rewrite Qc_of_nat_mul. by field.
Qed.

Lemma sustained_buffers_contiguous wave lapse size turns :
  (0 < size)%nat → ∀ offset,
  concat (sustained_buffers wave (np_linspace 0 lapse size) lapse turns offset)
  = map (λ t, wave (t + offset))
      (np_linspace 0 (Qc_of_nat turns * lapse) (turns * size)).
Proof.
  intros Hsize.
  pose proof (Qc_pos_nonzero _ (Qc_of_nat_pos size Hsize)) as Hnz.
  induction turns as [|turns IH]; intros offset; [done|].
  rewrite np_linspace_grid by done. simpl sustained_buffers.
  rewrite concat_cons, IH, np_linspace_grid by done.
  change (S turns * size)%nat with (size + turns * size)%nat.
  rewrite seq_app, !map_app, !map_map. f_equal.
  - unfold np_linspace. rewrite map_map. apply map_ext. intros m.
    f_equal. by field.
  - pose proof (fmap_add_seq size 0 (turns * size)) as Hseq.
    rewrite Nat.add_0_r in Hseq. simpl (0 + size)%nat. rewrite <- Hseq.
    change (Nat.add size <$> seq 0 (turns * size))
      with (map (Nat.add size) (seq 0 (turns * size))).
    rewrite map_map. apply map_ext. intros m.
    f_equal. rewrite Qc_of_nat_add. by field.
Qed.

(** C9.  An instrument reached from construction holds a single pressed
    note at amplitude 1 and nothing releasing, and its time offset stays
    within the wrap threshold for the next [turns] turns.  Then the audio
    loop writes [turns] buffers, and their concatenation is the closed form
    [sum of weight * sin(2 * pi * fundamental * ratio * t)] evaluated on
    the one contiguous vector of [turns * chunk_size] sample times. *)
Theorem phase_continuity h a att rel sr size init es k f turns :
  (0 < size)%nat →
  Instrument_init h a att rel sr size = inr init →
  pressed_keys (run np_sin np_pi es init) = {[k := mkNote f 1]} →
  releasing_keys (run np_sin np_pi es init) = ∅ →
  (∀ j, (1 ≤ j ≤ turns)%nat →
     time_offset (run np_sin np_pi es init)
     + Qc_of_nat j * buffer_time_lapse (run np_sin np_pi es init)
     ≤ Qc_of_Z 360) →
  ∃ buffers self',
    emit_sound np_sin np_pi turns (run np_sin np_pi es init)
    = Returns buffers self'
    ∧ length buffers = turns
    ∧ concat buffers
      = map (closed_form_wave np_sin np_pi (harmonics (run np_sin np_pi es init))
               (amps (run np_sin np_pi es init)) f)
          (contiguous_times (run np_sin np_pi es init) turns).
Proof.
  intros Hsize Hinit Hp Hr Hwrap.
  pose proof (Instrument_init_n_attack_samples _ _ _ _ _ _ _ Hinit) as Hn.
  destruct (run_settings np_sin np_pi es init Hn)
    as (_ & _ & _ & _ & _ & _ & _ & Hsz & Hlapse & Hchunk).
  apply Instrument_init_fields in Hinit
    as (_ & _ & _ & _ & Hsz0 & _ & _ & Hlapse0 & Hchunk0 & _).
  set (self := run np_sin np_pi es init) in *.
  assert (Hlen : length (time_chunk self) = chunk_size self).
  { by rewrite Hchunk, Hchunk0, length_np_linspace, Hsz. }
  destruct (emit_sound_sustained k f turns self Hp Hr Hlen Hwrap)
    as [self' Hemit].
  eexists _, self'. split; [exact Hemit|].
  split; [apply length_sustained_buffers|].
  unfold contiguous_times. rewrite map_map.
  rewrite Hchunk, Hchunk0, <- Hlapse0, <- Hlapse, Hsz, Hsz0.
  by apply sustained_buffers_contiguous.
Qed.

End PhaseContinuity.

Lemma phase_continuity_witness :
  ∃ init,
    (0 < 2)%nat
    ∧ Instrument_init [1; 2] (Some [1; 1 / 2]) 1 1 (Qc_of_Z 4) 2 = inr init
    ∧ pressed_keys (run taylor_sin approx_pi [KeyPress "a"; Turn; Turn] init)
      = {["a" := mkNote (1 * Q2Qc 261.63) 1]}
    ∧ releasing_keys (run taylor_sin approx_pi [KeyPress "a"; Turn; Turn] init)
      = ∅
    ∧ (∀ j, (1 ≤ j ≤ 2)%nat →
         time_offset (run taylor_sin approx_pi [KeyPress "a"; Turn; Turn] init)
         + Qc_of_nat j
           * buffer_time_lapse
               (run taylor_sin approx_pi [KeyPress "a"; Turn; Turn] init)
         ≤ Qc_of_Z 360)
    ∧ ∃ buffers self',
        emit_sound taylor_sin approx_pi 2
          (run taylor_sin approx_pi [KeyPress "a"; Turn; Turn] init)
        = Returns buffers self'
        ∧ length buffers = 2%nat
        ∧ concat buffers
          = map (closed_form_wave taylor_sin approx_pi
                   (harmonics
                      (run taylor_sin approx_pi
                         [KeyPress "a"; Turn; Turn] init))
                   (amps
                      (run taylor_sin approx_pi
                         [KeyPress "a"; Turn; Turn] init))
                   (1 * Q2Qc 261.63))
              (contiguous_times
                 (run taylor_sin approx_pi [KeyPress "a"; Turn; Turn] init)
                 2).
Proof.
  eexists.
  assert (H1 : (0 < 2)%nat) by lia.
  split; [exact H1|]. split; [reflexivity|].
  match goal with
  | |- pressed_keys ?s = _ ∧ _ => set (self := s)
  end.
  assert (Hp : pressed_keys self = {["a" := mkNote (1 * Q2Qc 261.63) 1]})
    by by_compute.
  assert (Hr : releasing_keys self = ∅) by by_compute.
  assert (Hwrap : ∀ j, (1 ≤ j ≤ 2)%nat →
            time_offset self + Qc_of_nat j * buffer_time_lapse self
            ≤ Qc_of_Z 360).
  { intros j Hj.
    destruct (decide (j = 1%nat)) as [->|Hne]; [by_compute|].
    assert (j = 2%nat) as -> by lia. by_compute. }
  split; [exact Hp|]. split; [exact Hr|]. split; [exact Hwrap|].
  exact (phase_continuity taylor_sin approx_pi [1; 2] (Some [1; 1 / 2]) 1 1
           (Qc_of_Z 4) 2 _ [KeyPress "a"; Turn; Turn] "a" _ 2
           H1 eq_refl Hp Hr Hwrap).
Defined.

(** * Further properties of the code *)

(** ** The constructor *)


Lemma lookup_map {A B} (f : A → B) (l : list A) i :
  map f l !! i = f <$> l !! i.
Proof.
  revert i. induction l as [|x l IH]; intros [|i]; simpl; auto.
Qed.

Lemma lookup_np_linspace start stop num i :
  (i < num)%nat →
  np_linspace start stop num !! i
  = Some (Qc_of_nat i * ((stop - start) / Qc_of_nat num) + start).
Proof.
  intros Hi. unfold np_linspace.
  by rewrite lookup_map, lookup_seq_lt.
Qed.

(** X2.  The sample times of one buffer: the constructor lays [chunk_size]
    of them, sample [i] at [i / sample_rate], and the duration of a buffer
    is [chunk_size / sample_rate], one sample period past the last
    sample. *)
Theorem Instrument_init_time_chunk h a att rel sr size self i :
  Instrument_init h a att rel sr size = inr self →
  (i < size)%nat →
  length (time_chunk self) = size
  ∧ time_chunk self !! i = Some (Qc_of_nat i / sr)
  ∧ buffer_time_lapse self = Qc_of_nat size / sr.
Proof.
  intros Hinit Hi.
  apply Instrument_init_fields in Hinit
    as (_ & Hsr & _ & _ & _ & _ & _ & Hlapse & Hchunk & _).
  rewrite Hchunk, length_np_linspace, lookup_np_linspace by done.
  split; [done|]. split; [|done]. f_equal.
  pose proof (Qc_pos_nonzero _ (Qc_of_nat_pos size ltac:(lia))).
  by field.
Qed.

Lemma Instrument_init_time_chunk_witness :
  ∃ self,
    Instrument_init [1] (Some [1]) 1 1 (Qc_of_Z 4) 2 = inr self
    ∧ (1 < 2)%nat
    ∧ length (time_chunk self) = 2%nat
    ∧ time_chunk self !! 1%nat = Some (Qc_of_nat 1 / Qc_of_Z 4)
    ∧ buffer_time_lapse self = Qc_of_nat 2 / Qc_of_Z 4.
Proof.
  eexists. split; [reflexivity|].
  assert (Hi : (1 < 2)%nat) by lia. split; [exact Hi|].
  exact (Instrument_init_time_chunk [1] (Some [1]) 1 1 (Qc_of_Z 4) 2 _ 1
           eq_refl Hi).
Defined.

Lemma Instrument_init_n_release_samples h a att rel sr size self :
  Instrument_init h a att rel sr size = inr self →
  n_release_samples self = rel * sr.
Proof.
  unfold Instrument_init. destruct a as [a|]; [|done]. cbn.
  destruct (decide (sr = 0)); [done|]. by intros [= <-].
Qed.

(** A note key pressed on a new instrument. *)
Lemma press_state_new_instrument h a att rel sr size init k f :
  Instrument_init h a att rel sr size = inr init →
  base_frequency k = Some f →
  pressed_keys (press_state k init) !! k = Some (mkNote (1 * f) 0).
Proof.
  intros Hinit Hf.
  apply Instrument_init_fields in Hinit
    as (_ & _ & _ & _ & _ & _ & _ & _ & _ & _ & _ & Hoct).
  unfold press_state. rewrite Hf, Hoct.
  assert (py_bool (1 * f) = true) as ->.
  { replace (1 * f) with f by ring. by eapply base_frequency_nonzero. }
  cbn. by rewrite lookup_insert_eq.
Qed.

Section ZeroRelease.

Variable np_sin : Qc → Qc.
Variable np_pi : Qc.

(** X3.  A release duration of zero: the constructor's test on
    [n_release_samples] assigns 1 to [n_attack_samples], so whatever the
    attack duration the step of the envelope is the whole [chunk_size], and
    a note key pressed on the new instrument is at amplitude 1 after a
    single turn; [n_release_samples] itself stays zero. *)
Theorem zero_release_resets_attack h a att sr size init k :
  (0 < size)%nat →
  Instrument_init h a att 0 sr size = inr init →
  is_Some (base_frequency k) →
  n_attack_samples init = 1
  ∧ n_release_samples init = 0
  ∧ envelope_step init = Qc_of_nat size
  ∧ ∃ n,
      pressed_keys (run np_sin np_pi [KeyPress k; Turn] init) !! k = Some n
      ∧ amp n = 1.
Proof.
  intros Hsize Hinit [f Hf].
  pose proof (Instrument_init_n_release_samples _ _ _ _ _ _ _ Hinit) as Hrel.
  pose proof (Instrument_init_fields _ _ _ _ _ _ _ Hinit)
    as (_ & _ & _ & Hn & Hsz & _).
  assert (H0 : 0 * sr = 0) by ring.
  rewrite decide_True in Hn by done. rewrite H0 in Hrel.
  assert (Hstep : envelope_step init = Qc_of_nat size).
  { unfold envelope_step. rewrite Hn, Hsz. by field. }
  split; [done|]. split; [done|]. split; [done|].
  rewrite run_as_state by (by rewrite Hn). simpl.
  rewrite turn_state_pressed, lookup_fmap.
  rewrite (press_state_new_instrument _ _ _ _ _ _ _ _ _ Hinit Hf).
  rewrite (same_settings_envelope_step init) by apply press_state_settings.
  rewrite Hstep. cbn. eexists. split; [done|].
  unfold attack_note. cbn.
  pose proof (Qc_of_nat_ge_1 size Hsize) as Hge.
  rewrite bool_decide_true by by_compute.
  rewrite bool_decide_true by qc_lra. done.
Qed.

End ZeroRelease.

Lemma zero_release_resets_attack_witness :
  ∃ init,
    (0 < 2)%nat
    ∧ Instrument_init [1] (Some [1]) 1 0 (Qc_of_Z 4) 2 = inr init
    ∧ is_Some (base_frequency "a")
    ∧ n_attack_samples init = 1
    ∧ n_release_samples init = 0
    ∧ envelope_step init = Qc_of_nat 2
    ∧ ∃ n,
        pressed_keys (run taylor_sin approx_pi [KeyPress "a"; Turn] init)
        !! "a" = Some n
        ∧ amp n = 1.
Proof.
  eexists.
  assert (H1 : (0 < 2)%nat) by lia.
  assert (H2 : is_Some (base_frequency "a")) by (by eexists).
  split; [exact H1|]. split; [reflexivity|]. split; [exact H2|].
  exact (zero_release_resets_attack taylor_sin approx_pi [1] (Some [1]) 1
           (Qc_of_Z 4) 2 _ "a" H1 eq_refl H2).
Defined.

(** ** The octave *)

Lemma set_octave_id self : set_octave (octave self) self = self.
Proof. by destruct self. Qed.

(** X4.  While the octave is a power of 2 between [2^-1000] and [2^1000],
    where the program halves and doubles it without rounding, halving then
    doubling, or doubling then halving, brings the instrument back:
    releasing ['z'] then ['x'] (or ['x'] then ['z']) leaves it with the
    octave and everything else it had, and so does pressing them, although
    each press raises. *)
Theorem octave_keys_round_trip (self : Instrument) (n : nat) :
  (n ≤ 1000)%nat →
  octave self = 2 ^ n ∨ octave self * 2 ^ n = 1 →
  state_after (key_release "x" (state_after (key_release "z" self))) = self
  ∧ state_after (key_release "z" (state_after (key_release "x" self))) = self
  ∧ state_after (key_press "x" (state_after (key_press "z" self))) = self
  ∧ state_after (key_press "z" (state_after (key_press "x" self))) = self.
Proof.
  intros _ _.
  destruct base_frequency_octave_keys as [Hz Hx].
  rewrite !(key_release_other _ _ Hz), !(key_release_other _ _ Hx),
    !(key_press_other _ _ Hz), !(key_press_other _ _ Hx).
  cbn [state_after].
  change (octave_shift "x" (octave_shift "z" self))
    with (set_octave (octave self / 2 * 2) self).
  change (octave_shift "z" (octave_shift "x" self))
    with (set_octave (octave self * 2 / 2) self).
  assert (H1 : octave self / 2 * 2 = octave self) by (by field).
  assert (H2 : octave self * 2 / 2 = octave self) by (by field).
  rewrite H1, H2, set_octave_id. done.
Qed.

(** On a new instrument with the octave lowered three times. *)
Lemma octave_keys_round_trip_witness :
  ∃ init self,
    Instrument_init [1] (Some [1]) 1 1 (Qc_of_Z 4) 2 = inr init
    ∧ self = run taylor_sin approx_pi
               [KeyPress "z"; KeyRelease "z"; KeyRelease "z"] init
    ∧ (3 ≤ 1000)%nat
    ∧ (octave self = 2 ^ 3 ∨ octave self * 2 ^ 3 = 1)
    ∧ state_after (key_release "x" (state_after (key_release "z" self)))
      = self
    ∧ state_after (key_release "z" (state_after (key_release "x" self)))
      = self
    ∧ state_after (key_press "x" (state_after (key_press "z" self))) = self
    ∧ state_after (key_press "z" (state_after (key_press "x" self))) = self.
Proof.
  eexists _, _. split; [reflexivity|]. split; [reflexivity|].
  match goal with |- _ ∧ (octave ?s = _ ∨ _) ∧ _ => set (self := s) end.
  assert (Hn : (3 ≤ 1000)%nat) by lia.
  assert (Hoct : octave self = 2 ^ 3 ∨ octave self * 2 ^ 3 = 1)
    by (right; by_compute).
  split; [exact Hn|]. split; [exact Hoct|].
  exact (octave_keys_round_trip self 3 Hn Hoct).
Defined.

(** ** The frequency table *)

Lemma base_frequency_cases k :
  (k ∈ note_keys
   ∧ ∃ f, base_frequency k = Some f
          ∧ Q2Qc 261.63 ≤ f ∧ f ≤ Q2Qc 659.25)
  ∨ ((k ∉ note_keys) ∧ base_frequency k = None).
Proof.
  unfold base_frequency, _key_to_freq.
  destruct (String.eqb_spec k "z") as [->|Hz];
    [right; split; [by_compute|done]|].
  destruct (String.eqb_spec k "x") as [->|Hx];
    [right; split; [by_compute|done]|].
  repeat match goal with
  | |- context [String.eqb k ?s] =>
      destruct (String.eqb_spec k s) as [->|?];
        [left; split;
           [by_compute|eexists; split; [reflexivity|split; by_compute]]|]
  end.
  right. split; [|done]. unfold note_keys.
  rewrite !elem_of_cons, elem_of_nil. intuition congruence.
Qed.

(** X5.  The keys that sound are the seventeen of the layout and no other;
    each resolves to a frequency between 261.63 and 659.25, so none
    resolves to zero; and the octave keys ['z'] and ['x'] are not among
    them. *)
Theorem base_frequency_domain k :
  (is_Some (base_frequency k) ↔ k ∈ note_keys)
  ∧ (∀ f, base_frequency k = Some f →
          Q2Qc 261.63 ≤ f ∧ f ≤ Q2Qc 659.25 ∧ 0 < f)
  ∧ ("z" ∉ note_keys) ∧ ("x" ∉ note_keys).
Proof.
  split; [|split; [|split; by_compute]].
  - destruct (base_frequency_cases k) as [[Hin (f & -> & _)]|[Hout ->]].
    + split; [done|by eexists].
    + split; [by intros [? [=]]|done].
  - intros f Hf.
    destruct (base_frequency_cases k) as [[_ (f' & Hf' & H1 & H2)]|[_ Hn]];
      [|congruence].
    assert (f' = f) as -> by congruence.
    split; [done|]. split; [done|].
    assert (0 < Q2Qc 261.63) by by_compute.
    eapply Qclt_le_trans; done.
Qed.

Lemma base_frequency_pos k f : base_frequency k = Some f → 0 < f.
Proof.
  intros Hf.
  destruct (base_frequency_cases k) as [[_ (f' & Hf' & H1 & _)]|[_ Hn]];
    [|congruence].
  assert (f' = f) as -> by congruence.
  assert (0 < Q2Qc 261.63) by by_compute.
  eapply Qclt_le_trans; done.
Qed.

(** ** The octave along a sequence of events *)

Lemma base_frequency_not_octave_key k f sym :
  base_frequency k = Some f → sym = "z" ∨ sym = "x" →
  String.eqb k sym = false.
Proof.
  intros Hf Hsym. apply String.eqb_neq. intros ->.
  destruct base_frequency_octave_keys as [Hz Hx].
  destruct Hsym as [->| ->]; congruence.
Qed.

Lemma event_state_octave e self :
  octave (event_state e self)
  = if carries "z" e then octave self / 2
    else if carries "x" e then octave self * 2
    else octave self.
Proof.
  destruct e as [k|k|]; simpl.
  - unfold press_state. destruct (base_frequency k) as [f|] eqn:Hf.
    + rewrite !(base_frequency_not_octave_key k f) by auto.
      by destruct (py_bool _).
    + unfold octave_shift.
      destruct (String.eqb k "z"); [done|]. by destruct (String.eqb k "x").
  - unfold release_state. destruct (base_frequency k) as [f|] eqn:Hf.
    + rewrite !(base_frequency_not_octave_key k f) by auto.
      by destruct (pressed_keys self !! k).
    + unfold octave_shift.
      destruct (String.eqb k "z"); [done|]. by destruct (String.eqb k "x").
  - unfold turn_state. by destruct (idle self).
Qed.

Lemma Qcpower_2_pos n : 0 < 2 ^ n.
Proof.
  induction n as [|n IH]; simpl; [by_compute|].
  apply Qcmult_pos_pos; [by_compute|done].
Qed.

Lemma run_state_octave es : ∀ self,
  octave (run_state es self) * 2 ^ octave_events "z" es
  = octave self * 2 ^ octave_events "x" es.
Proof.
  induction es as [|e es IH]; intros self; simpl; [done|].
  change (foldl (λ s e, event_state e s) ?s es) with (run_state es s).
  pose proof (IH (event_state e self)) as H.
  rewrite event_state_octave in H.
  destruct (carries "z" e) eqn:Ez, (carries "x" e) eqn:Ex; simpl.
  - destruct e as [k|k|]; simpl in *; try done;
      apply String.eqb_eq in Ez; apply String.eqb_eq in Ex; congruence.
  - transitivity (octave (run_state es (event_state e self))
                  * 2 ^ octave_events "z" es * 2); [ring|].
    rewrite H. by field.
  - rewrite H. ring.
  - done.
Qed.

Lemma run_state_octave_pos es self :
  octave self = 1 → 0 < octave (run_state es self).
Proof.
  intros Hoct. pose proof (run_state_octave es self) as H. rewrite Hoct in H.
  apply Qclt_nge. intros Hle.
  pose proof (Qcpower_2_pos (octave_events "z" es)) as Hz.
  pose proof (Qcpower_2_pos (octave_events "x" es)) as Hx.
  assert (Hmul : octave (run_state es self) * 2 ^ octave_events "z" es
                 ≤ 0 * 2 ^ octave_events "z" es).
  { apply Qcmult_le_mono_nonneg_r; [|done]. by apply Qclt_le_weak. }
  rewrite H in Hmul.
  replace (0 * 2 ^ octave_events "z" es) with 0 in Hmul by ring.
  replace (1 * 2 ^ octave_events "x" es) with (2 ^ octave_events "x" es)
    in Hmul by ring.
  by apply Qcle_ngt in Hmul.
Qed.

Lemma carries_octave_keys e :
  carries "x" e = true → carries "z" e = false.
Proof.
  destruct e as [k|k|]; simpl; [| |done];
    intros ->%String.eqb_eq; by apply String.eqb_neq.
Qed.

(** With the exponent within bounds after every event, it is within
    bounds at the end, where it is the number of events on ['x'] less the
    number of events on ['z']. *)
Lemma octave_kept_exponent es : ∀ e0,
  octave_kept e0 es = true → (-1000 ≤ e0 ≤ 1000)%Z →
  (-1000 ≤ e0 + Z.of_nat (octave_events "x" es)
           - Z.of_nat (octave_events "z" es) ≤ 1000)%Z.
Proof.
  induction es as [|e es IH]; intros e0 Hkept He0; simpl in *; [lia|].
  apply andb_prop in Hkept as [Hnow Hkept]. apply bool_decide_eq_true in Hnow.
  specialize (IH _ Hkept Hnow). unfold octave_move in *.
  destruct (carries "x" e) eqn:Ex.
  - rewrite (carries_octave_keys e Ex). lia.
  - destruct (carries "z" e); lia.
Qed.

Lemma Qcpower_2_add n m : 2 ^ (n + m) = 2 ^ n * 2 ^ m.
Proof. induction n as [|n IH]; simpl; [ring|]. rewrite IH. ring. Qed.

Lemma Qcpower_2_le n m : (n ≤ m)%nat → 2 ^ n ≤ 2 ^ m.
Proof.
  intros Hle. replace m with (m - n + n)%nat by lia.
  rewrite Qcpower_2_add.
  assert (H1 : 1 ≤ 2 ^ (m - n)).
  { induction (m - n)%nat as [|j IH]; simpl; [by_compute|].
    pose proof (Qcpower_2_pos j). remember (2 ^ j) as p. clear - IH.
    qc_lra. }
  pose proof (Qcpower_2_pos n) as Hn.
  apply (Qcmult_le_mono_nonneg_r _ _ (2 ^ n)) in H1;
    [|by apply Qclt_le_weak].
  by replace (1 * 2 ^ n) with (2 ^ n) in H1 by ring.
Qed.

Section Octave.

Variable np_sin : Qc → Qc.
Variable np_pi : Qc.

(** X6.  While the events received keep the exponent of the octave within
    [-1000, 1000], where the program halves and doubles without rounding,
    the octave is two to the number of events on ['x'] over two to the
    number of events on ['z'], presses and releases counted alike: an
    octave key held and let go moves the instrument by two octaves.  The
    octave is then between [2^-1000] and [2^1000], and is not zero. *)
Theorem octave_after_events h a att rel sr size init es :
  Instrument_init h a att rel sr size = inr init →
  octave_kept 0 es = true →
  octave (run np_sin np_pi es init) * 2 ^ octave_events "z" es
  = 2 ^ octave_events "x" es
  ∧ 1 ≤ octave (run np_sin np_pi es init) * 2 ^ 1000
  ∧ octave (run np_sin np_pi es init) ≤ 2 ^ 1000
  ∧ 0 < octave (run np_sin np_pi es init).
Proof.
  intros Hinit Hkept.
  pose proof (Instrument_init_n_attack_samples _ _ _ _ _ _ _ Hinit) as Hn.
  apply Instrument_init_fields in Hinit
    as (_ & _ & _ & _ & _ & _ & _ & _ & _ & _ & _ & Hoct).
  rewrite run_as_state by done.
  pose proof (run_state_octave es init) as H. rewrite Hoct in H.
  replace (1 * 2 ^ octave_events "x" es) with (2 ^ octave_events "x" es)
    in H by ring.
  pose proof (octave_kept_exponent es 0 Hkept ltac:(lia)) as Hrange.
  pose proof (Qcpower_2_pos (octave_events "z" es)) as Hz.
  split; [done|]. split; [|split; [|by apply run_state_octave_pos]].
  - apply (Qcmult_le_mono_pos_r _ _ (2 ^ octave_events "z" es)); [done|].
    replace (octave (run_state es init) * 2 ^ 1000
             * 2 ^ octave_events "z" es)
      with (octave (run_state es init) * 2 ^ octave_events "z" es
            * 2 ^ 1000) by ring.
    rewrite H, <- Qcpower_2_add.
    replace (1 * 2 ^ octave_events "z" es)
      with (2 ^ octave_events "z" es) by ring.
    apply Qcpower_2_le. lia.
  - apply (Qcmult_le_mono_pos_r _ _ (2 ^ octave_events "z" es)); [done|].
    rewrite H, <- Qcpower_2_add. apply Qcpower_2_le. lia.
Qed.

End Octave.

Lemma octave_after_events_witness :
  ∃ init,
    Instrument_init [1] (Some [1]) 1 1 (Qc_of_Z 4) 2 = inr init
    ∧ octave_kept 0 [KeyPress "z"; KeyRelease "z"; KeyPress "x"] = true
    ∧ octave
        (run taylor_sin approx_pi
           [KeyPress "z"; KeyRelease "z"; KeyPress "x"] init)
      = 1 / 2
    ∧ octave
        (run taylor_sin approx_pi
           [KeyPress "z"; KeyRelease "z"; KeyPress "x"] init)
      * 2 ^ octave_events "z" [KeyPress "z"; KeyRelease "z"; KeyPress "x"]
      = 2 ^ octave_events "x" [KeyPress "z"; KeyRelease "z"; KeyPress "x"]
    ∧ 1 ≤ octave
            (run taylor_sin approx_pi
               [KeyPress "z"; KeyRelease "z"; KeyPress "x"] init)
          * 2 ^ 1000
    ∧ octave
        (run taylor_sin approx_pi
           [KeyPress "z"; KeyRelease "z"; KeyPress "x"] init)
      ≤ 2 ^ 1000
    ∧ 0 < octave
            (run taylor_sin approx_pi
               [KeyPress "z"; KeyRelease "z"; KeyPress "x"] init).
Proof.
  eexists. split; [reflexivity|].
  assert (Hkept : octave_kept 0 [KeyPress "z"; KeyRelease "z"; KeyPress "x"]
                  = true) by reflexivity.
  split; [exact Hkept|]. split; [by_compute|].
  exact (octave_after_events taylor_sin approx_pi [1] (Some [1]) 1 1
           (Qc_of_Z 4) 2 _ [KeyPress "z"; KeyRelease "z"; KeyPress "x"]
           eq_refl Hkept).
Defined.

(** ** Key events in the states the instrument reaches *)

Section KeyEvents.

(** X7.  While the octave is positive and at most [2^1000], where its
    product with a frequency is an ordinary binary64 number, pressing a
    note key returns normally and files under that key a note at amplitude
    0 whose fundamental is the octave times the key's frequency, a
    positive number; a note already pressed under the key is replaced, the
    notes of the other keys and the whole registry of releasing notes are
    left as they are (a key still releasing is then in both registries),
    and so are the octave and the time offset. *)
Theorem key_press_starts_voice (self : Instrument) k f :
  0 < octave self → octave self ≤ 2 ^ 1000 →
  base_frequency k = Some f →
  0 < octave self * f
  ∧ ∃ self',
      key_press k self = Returns tt self'
      ∧ pressed_keys self' !! k = Some (mkNote (octave self * f) 0)
      ∧ (∀ k', k' ≠ k → pressed_keys self' !! k' = pressed_keys self !! k')
      ∧ releasing_keys self' = releasing_keys self
      ∧ octave self' = octave self
      ∧ time_offset self' = time_offset self.
Proof.
  intros Hoct _ Hf.
  assert (Hpos : 0 < octave self * f).
  { apply Qcmult_pos_pos; [done|by eapply base_frequency_pos]. }
  split; [done|].
  rewrite (key_press_note _ _ _ Hf).
  assert (py_bool (octave self * f) = true) as ->.
  { unfold py_bool. rewrite bool_decide_false; [done|].
    by apply Qc_pos_nonzero. }
  eexists. split; [done|]. cbn.
  split; [by rewrite lookup_insert_eq|].
  split; [|done]. intros k' Hk'. by rewrite lookup_insert_ne.
Qed.

End KeyEvents.

Lemma key_press_starts_voice_witness :
  ∃ init self,
    Instrument_init [1] (Some [1]) 1 1 (Qc_of_Z 4) 2 = inr init
    ∧ self = run taylor_sin approx_pi [KeyRelease "x"] init
    ∧ 0 < octave self
    ∧ octave self ≤ 2 ^ 1000
    ∧ base_frequency "a" = Some (Q2Qc 261.63)
    ∧ octave self = 2
    ∧ 0 < octave self * Q2Qc 261.63
    ∧ ∃ self',
        key_press "a" self = Returns tt self'
        ∧ pressed_keys self' !! "a"
          = Some (mkNote (octave self * Q2Qc 261.63) 0)
        ∧ (∀ k', k' ≠ "a" →
             pressed_keys self' !! k' = pressed_keys self !! k')
        ∧ releasing_keys self' = releasing_keys self
        ∧ octave self' = octave self
        ∧ time_offset self' = time_offset self.
Proof.
  eexists _, _. split; [reflexivity|]. split; [reflexivity|].
  match goal with |- 0 < octave ?s ∧ _ => set (self := s) end.
  assert (Hpos : 0 < octave self) by by_compute.
  assert (Hle : octave self ≤ 2 ^ 1000) by by_compute.
  assert (Hf : base_frequency "a" = Some (Q2Qc 261.63)) by reflexivity.
  split; [exact Hpos|]. split; [exact Hle|]. split; [exact Hf|].
  split; [by_compute|].
  exact (key_press_starts_voice self "a" _ Hpos Hle Hf).
Defined.

(** X8.  A release delivered twice: once a pressed note key has been
    released, a second [key_release] of it raises [KeyError] and changes
    nothing, so the note goes on releasing from the amplitude the first
    call carried over. *)
Theorem key_release_twice (self : Instrument) (k : string) (n : Note) :
  is_Some (base_frequency k) →
  pressed_keys self !! k = Some n →
  key_release k (state_after (key_release k self))
  = Raises KeyError (state_after (key_release k self))
  ∧ releasing_keys (state_after (key_release k self)) !! k = Some n
  ∧ pressed_keys (state_after (key_release k self)) !! k = None.
Proof.
  intros [f Hf] Hk. rewrite !(key_release_note _ _ _ Hf), Hk. cbn.
  rewrite lookup_delete_eq, lookup_insert_eq. done.
Qed.

Lemma key_release_twice_witness :
  ∃ init self n,
    Instrument_init [1] (Some [1]) 1 1 (Qc_of_Z 4) 2 = inr init
    ∧ self = run taylor_sin approx_pi [KeyPress "a"; Turn] init
    ∧ is_Some (base_frequency "a")
    ∧ pressed_keys self !! "a" = Some n
    ∧ amp n = 1 / 2
    ∧ key_release "a" (state_after (key_release "a" self))
      = Raises KeyError (state_after (key_release "a" self))
    ∧ releasing_keys (state_after (key_release "a" self)) !! "a" = Some n
    ∧ pressed_keys (state_after (key_release "a" self)) !! "a" = None.
Proof.
  eexists _, _, (mkNote (1 * Q2Qc 261.63) (1 / 2)).
  split; [reflexivity|]. split; [reflexivity|].
  match goal with |- _ ∧ pressed_keys ?s !! _ = _ ∧ _ => set (self := s) end.
  assert (Hf : is_Some (base_frequency "a")) by (by eexists).
  assert (Hk : pressed_keys self !! "a"
               = Some (mkNote (1 * Q2Qc 261.63) (1 / 2))) by by_compute.
  split; [exact Hf|]. split; [exact Hk|]. split; [reflexivity|].
  exact (key_release_twice self "a" _ Hf Hk).
Defined.

(** ** The audio loop *)

Lemma pressed_body_length np_sin np_pi key chunk self c self' :
  length (time_chunk self) = chunk_size self →
  length chunk = chunk_size self →
  pressed_body np_sin np_pi key chunk self = Returns c self' →
  length c = chunk_size self.
Proof.
  intros Htc Hc. unfold pressed_body, _generate_sound_chunk. munfold.
  destruct (pressed_keys self !! key) as [note|]; cbn;
    [|by intros [= <- _]].
  rewrite sound_chunk_closed_form by done.
  case_bool_decide; cbn.
  - destruct (decide (n_attack_samples self = 0)); cbn; [done|].
    case_bool_decide; cbn; intros [= <- _];
      unfold np_add, np_multiply;
      rewrite !length_zip_with, length_map, length_np_linspace; lia.
  - intros [= <- _]. unfold np_add. rewrite length_zip_with, length_map. lia.
Qed.

Lemma releasing_body_length np_sin np_pi key chunk self c self' :
  length (time_chunk self) = chunk_size self →
  length chunk = chunk_size self →
  releasing_body np_sin np_pi key chunk self = Returns c self' →
  length c = chunk_size self.
Proof.
  intros Htc Hc. unfold releasing_body, _generate_sound_chunk. munfold.
  destruct (releasing_keys self !! key) as [note|] eqn:Hk; cbn;
    [|by intros [= <- _]].
  case_bool_decide; cbn.
  - rewrite sound_chunk_closed_form by done.
    destruct (decide (n_attack_samples self = 0)); cbn; [done|].
    intros [= <- _]. unfold np_add, np_multiply.
    rewrite !length_zip_with, length_map, length_np_linspace. lia.
  - rewrite Hk. cbn. by intros [= <- _].
Qed.

Section AudioLoop.

Variable np_sin : Qc → Qc.
Variable np_pi : Qc.

Lemma for_each_pressed_length ks : ∀ chunk self,
  n_attack_samples self ≠ 0 →
  length (time_chunk self) = chunk_size self →
  length chunk = chunk_size self →
  ∃ c, for_each ks (pressed_body np_sin np_pi) chunk self =
       Returns c (set_pressed_keys
                    (foldl (λ m k, alter (attack_note (envelope_step self)) k m)
                       (pressed_keys self) ks)
                    self)
       ∧ length c = chunk_size self.
Proof.
  induction ks as [|k ks IH]; intros chunk self Hn Htc Hc; simpl.
  - destruct self; by eexists.
  - unfold mbind, M_bind.
    destruct (pressed_body_state np_sin np_pi k chunk self Hn) as [c Hbody].
    pose proof (pressed_body_length _ _ _ _ _ _ _ Htc Hc Hbody) as Hlen.
    rewrite Hbody.
    destruct (IH c (set_pressed_keys
                      (alter (attack_note (envelope_step self)) k
                         (pressed_keys self)) self) Hn Htc Hlen)
      as (c' & -> & Hlen').
    by eexists.
Qed.

Lemma for_each_releasing_length ks : ∀ chunk self,
  n_attack_samples self ≠ 0 →
  length (time_chunk self) = chunk_size self →
  length chunk = chunk_size self →
  ∃ c, for_each ks (releasing_body np_sin np_pi) chunk self =
       Returns c (set_releasing_keys
                    (foldl (λ m k,
                       partial_alter
                         (λ o, o ≫= release_note (envelope_step self)) k m)
                       (releasing_keys self) ks)
                    self)
       ∧ length c = chunk_size self.
Proof.
  induction ks as [|k ks IH]; intros chunk self Hn Htc Hc; simpl.
  - destruct self; by eexists.
  - unfold mbind, M_bind.
    destruct (releasing_body_state np_sin np_pi k chunk self Hn)
      as [c Hbody].
    pose proof (releasing_body_length _ _ _ _ _ _ _ Htc Hc Hbody) as Hlen.
    rewrite Hbody.
    destruct (IH c (set_releasing_keys
                      (partial_alter
                         (λ o, o ≫= release_note (envelope_step self)) k
                         (releasing_keys self)) self) Hn Htc Hlen)
      as (c' & -> & Hlen').
    by eexists.
Qed.

(** One turn, with what it writes: nothing when both registries are empty,
    one buffer of [chunk_size] samples otherwise. *)
Lemma emit_sound_turn_written self :
  n_attack_samples self ≠ 0 →
  length (time_chunk self) = chunk_size self →
  ∃ w,
    emit_sound_turn np_sin np_pi self = Returns w (turn_state self)
    ∧ (idle self = true → w = None)
    ∧ (idle self = false → ∃ c, w = Some c ∧ length c = chunk_size self).
Proof.
  intros Hn Htc.
  unfold emit_sound_turn, turn_state, idle, _generate_pressed_sound,
    _generate_releasing_sound.
  munfold.
  destruct (bool_decide (pressed_keys self = ∅)
            && bool_decide (releasing_keys self = ∅)).
  - eexists. split; [done|]. by split.
  - destruct (for_each_pressed_length (map_to_list (pressed_keys self)).*1
                (np_zeros (chunk_size self)) self Hn Htc)
      as (a & Ha & Hla); [apply length_replicate|].
    rewrite Ha, foldl_alter_keys.
    set (s1 := set_pressed_keys
                 (attack_note (envelope_step self) <$> pressed_keys self)
                 self).
    destruct (for_each_releasing_length
                (map_to_list (releasing_keys s1)).*1
                (np_zeros (chunk_size s1)) s1 Hn Htc)
      as (b & Hb & Hlb); [apply length_replicate|].
    rewrite Hb, foldl_partial_alter_keys. cbn.
    unfold next_offset.
    assert (Hlen : length (np_add (np_zeros (chunk_size self)) (np_add a b))
                   = chunk_size self).
    { unfold np_add, np_zeros. rewrite !length_zip_with, length_replicate.
      change (chunk_size s1) with (chunk_size self) in Hlb. lia. }
    case_bool_decide; (eexists; split; [done|]; split; [done|]; eauto).
Qed.

(** X9.  In every state reached from construction a turn of the audio loop
    returns normally: no division by zero and no missing key can stop it.
    It writes nothing exactly when both registries are empty, and otherwise
    one buffer of [chunk_size] samples. *)
Theorem emit_sound_turn_returns h a att rel sr size init es :
  Instrument_init h a att rel sr size = inr init →
  ∃ w self',
    emit_sound_turn np_sin np_pi (run np_sin np_pi es init) = Returns w self'
    ∧ (w = None ↔
       pressed_keys (run np_sin np_pi es init) = ∅
       ∧ releasing_keys (run np_sin np_pi es init) = ∅)
    ∧ (∀ c, w = Some c → length c = size).
Proof.
  intros Hinit.
  pose proof (Instrument_init_n_attack_samples _ _ _ _ _ _ _ Hinit) as Hn.
  destruct (run_settings np_sin np_pi es init Hn)
    as (_ & _ & _ & Hn' & _ & _ & _ & Hsz & _ & Htc).
  apply Instrument_init_fields in Hinit
    as (_ & _ & _ & _ & Hsz0 & _ & _ & _ & Htc0 & _).
  set (self := run np_sin np_pi es init) in *.
  assert (Hlen : length (time_chunk self) = chunk_size self)
    by (by rewrite Htc, Htc0, length_np_linspace, Hsz).
  destruct (emit_sound_turn_written self) as (w & Hw & Hidle & Hbusy);
    [by rewrite Hn'|done|].
  exists w, (turn_state self). split; [done|].
  unfold idle in *.
  destruct (bool_decide (pressed_keys self = ∅)) eqn:Ep,
    (bool_decide (releasing_keys self = ∅)) eqn:Er; cbn in *.
  - rewrite (Hidle eq_refl).
    apply bool_decide_eq_true in Ep, Er. by repeat split.
  - destruct (Hbusy eq_refl) as (c & -> & Hc).
    apply bool_decide_eq_false in Er.
    split; [split; [done|by intros [_ ?]]|].
    intros c' [= <-]. by rewrite Hc, Hsz.
  - destruct (Hbusy eq_refl) as (c & -> & Hc).
    apply bool_decide_eq_false in Ep.
    split; [split; [done|by intros [? _]]|].
    intros c' [= <-]. by rewrite Hc, Hsz.
  - destruct (Hbusy eq_refl) as (c & -> & Hc).
    apply bool_decide_eq_false in Ep.
    split; [split; [done|by intros [? _]]|].
    intros c' [= <-]. by rewrite Hc, Hsz.
Qed.

(** X10.  While both registries are empty the loop writes nothing at all,
    however many turns it takes, and keeps the time offset at 0; nothing
    else changes. *)
Theorem emit_sound_idle self turns :
  pressed_keys self = ∅ → releasing_keys self = ∅ →
  emit_sound np_sin np_pi (S turns) self
  = Returns [] (set_time_offset 0 self).
Proof.
  intros Hp Hr.
  assert (Hturn : ∀ s, pressed_keys s = ∅ → releasing_keys s = ∅ →
            emit_sound_turn np_sin np_pi s
            = Returns None (set_time_offset 0 s)).
  { intros s Hps Hrs. unfold emit_sound_turn. munfold. rewrite Hps, Hrs.
    by rewrite !bool_decide_true. }
  assert (Hstep : ∀ n s,
            emit_sound np_sin np_pi (S n) s
            = match emit_sound_turn np_sin np_pi s with
              | Returns w s' =>
                  match emit_sound np_sin np_pi n s' with
                  | Returns rest s'' => Returns (option_list w ++ rest) s''
                  | Raises e s'' => Raises e s''
                  end
              | Raises e s' => Raises e s'
              end) by done.
  revert self Hp Hr. induction turns as [|turns IH]; intros self Hp Hr.
  - by rewrite Hstep, Hturn.
  - by rewrite Hstep, Hturn, IH.
Qed.

End AudioLoop.

Lemma emit_sound_turn_returns_witness :
  ∃ init,
    Instrument_init [1] (Some [1]) 1 1 (Qc_of_Z 4) 2 = inr init
    ∧ ∃ w self',
        emit_sound_turn taylor_sin approx_pi
          (run taylor_sin approx_pi [KeyPress "a"] init)
        = Returns w self'
        ∧ (w = None ↔
           pressed_keys (run taylor_sin approx_pi [KeyPress "a"] init) = ∅
           ∧ releasing_keys (run taylor_sin approx_pi [KeyPress "a"] init)
             = ∅)
        ∧ (∀ c, w = Some c → length c = 2%nat).
Proof.
  eexists. split; [reflexivity|].
  exact (emit_sound_turn_returns taylor_sin approx_pi [1] (Some [1]) 1 1
           (Qc_of_Z 4) 2 _ [KeyPress "a"] eq_refl).
Defined.

Lemma emit_sound_idle_witness :
  ∃ self,
    Instrument_init [1] (Some [1]) 1 1 (Qc_of_Z 4) 2 = inr self
    ∧ pressed_keys self = ∅
    ∧ releasing_keys self = ∅
    ∧ emit_sound taylor_sin approx_pi 3 self
      = Returns [] (set_time_offset 0 self).
Proof.
  eexists. split; [reflexivity|].
  match goal with |- pressed_keys ?s = ∅ ∧ _ => set (self := s) end.
  assert (Hp : pressed_keys self = ∅) by reflexivity.
  assert (Hr : releasing_keys self = ∅) by reflexivity.
  split; [exact Hp|]. split; [exact Hr|].
  exact (emit_sound_idle taylor_sin approx_pi self 2 Hp Hr).
Defined.

(** ** The time offset *)

Lemma event_state_time_offset e self :
  time_offset (event_state e self)
  = match e with
    | Turn => if idle self then 0 else next_offset self
    | _ => time_offset self
    end.
Proof.
  destruct e as [k|k|]; simpl.
  - unfold press_state, octave_shift. destruct (base_frequency k).
    + by destruct (py_bool _).
    + by repeat (destruct (String.eqb k _)).
  - unfold release_state, octave_shift. destruct (base_frequency k).
    + by destruct (pressed_keys self !! k).
    + by repeat (destruct (String.eqb k _)).
  - unfold turn_state. by destruct (idle self).
Qed.

Section TimeOffset.

Variable np_sin : Qc → Qc.
Variable np_pi : Qc.

(** X11.  With a positive sample rate the time offset stays between 0 and
    the wrap threshold of 360 seconds in every state reached from
    construction: a turn that would carry it past 360 sets it back to 0,
    and key events leave it alone. *)
Theorem time_offset_bounds h a att rel sr size init es :
  0 < sr →
  Instrument_init h a att rel sr size = inr init →
  0 ≤ time_offset (run np_sin np_pi es init)
  ∧ time_offset (run np_sin np_pi es init) ≤ Qc_of_Z 360.
Proof.
  intros Hsr Hinit.
  pose proof (Instrument_init_n_attack_samples _ _ _ _ _ _ _ Hinit) as Hn.
  pose proof (Instrument_init_fields _ _ _ _ _ _ _ Hinit)
    as (_ & _ & _ & _ & _ & _ & Hoff & Hlapse & _).
  assert (Hlapse0 : 0 ≤ buffer_time_lapse init).
  { rewrite Hlapse. destruct size as [|size].
    - rewrite Qc_of_nat_0. unfold Qcdiv. by rewrite Qcmult_0_l.
    - apply Qclt_le_weak, Qcdiv_pos; [apply Qc_of_nat_pos; lia|done]. }
  destruct (run_invariant np_sin np_pi
              (λ s, buffer_time_lapse s = buffer_time_lapse init
                    ∧ 0 ≤ time_offset s ∧ time_offset s ≤ Qc_of_Z 360) es)
    with (self := init) as (_ & _ & H); [| |by rewrite Hoff|done]; [|done].
  intros s e Hs (Hl & H0 & H1).
  destruct (handle_settings np_sin np_pi e s Hs)
    as (_ & _ & _ & _ & _ & _ & _ & _ & Hl' & _).
  split; [by rewrite Hl'|].
  rewrite handle_state by done.
  change (match e with
          | KeyPress k => press_state k s
          | KeyRelease k => release_state k s
          | Turn => turn_state s
          end) with (event_state e s).
  rewrite event_state_time_offset. destruct e; [done..|].
  destruct (idle s); [by split|].
  unfold next_offset. rewrite Hl. cbn. case_bool_decide as Hw.
  - by split.
  - split; [|by apply Qcle_ngt].
    by apply Qcplus_nonneg_nonneg.
Qed.

End TimeOffset.

Lemma time_offset_bounds_witness :
  ∃ init,
    0 < Qc_of_Z 4
    ∧ Instrument_init [1] (Some [1]) 1 1 (Qc_of_Z 4) 2 = inr init
    ∧ time_offset (run taylor_sin approx_pi [KeyPress "a"; Turn; Turn] init)
      = 1
    ∧ 0 ≤ time_offset
            (run taylor_sin approx_pi [KeyPress "a"; Turn; Turn] init)
    ∧ time_offset (run taylor_sin approx_pi [KeyPress "a"; Turn; Turn] init)
      ≤ Qc_of_Z 360.
Proof.
  eexists.
  assert (Hsr : 0 < Qc_of_Z 4) by by_compute.
  split; [exact Hsr|]. split; [reflexivity|]. split; [by_compute|].
  exact (time_offset_bounds taylor_sin approx_pi [1] (Some [1]) 1 1
           (Qc_of_Z 4) 2 _ [KeyPress "a"; Turn; Turn] Hsr eq_refl).
Defined.

(** ** A key tapped between two turns *)

Section Tap.

Variable np_sin : Qc → Qc.
Variable np_pi : Qc.

(** One turn with nothing pressed and a single releasing note whose
    amplitude is not positive: the note is deleted and the buffer written
    is silence. *)
Lemma emit_sound_turn_spent self k f a :
  pressed_keys self = ∅ →
  releasing_keys self = {[k := mkNote f a]} →
  a ≤ 0 →
  ∃ self',
    emit_sound_turn np_sin np_pi self
    = Returns (Some (np_zeros (chunk_size self))) self'
    ∧ pressed_keys self' = ∅
    ∧ releasing_keys self' = ∅.
Proof.
  intros Hp Hr Ha.
  assert (Hbody : releasing_body np_sin np_pi k (np_zeros (chunk_size self))
                    self
                  = Returns (np_zeros (chunk_size self))
                      (set_releasing_keys ∅ self)).
  { unfold releasing_body. munfold. rewrite Hr, lookup_singleton_eq. cbn.
    rewrite bool_decide_false by (by apply Qcle_ngt). cbn.
    rewrite Hr, lookup_singleton_eq. cbn. by rewrite delete_singleton_eq. }
  unfold emit_sound_turn, _generate_pressed_sound, _generate_releasing_sound.
  munfold. rewrite bool_decide_true by done.
  rewrite (bool_decide_false (releasing_keys self = ∅))
    by (rewrite Hr; apply map_non_empty_singleton).
  cbn. rewrite Hp, map_to_list_empty. cbn.
  rewrite Hr, map_to_list_singleton. cbn.
  unfold mbind, M_bind, mret, M_ret. rewrite Hbody. cbn.
  rewrite !(np_add_zeros_l (np_zeros (chunk_size self)) (chunk_size self))
    by apply length_replicate.
  case_bool_decide; by eexists.
Qed.

(** X13.  A note key pressed and released between two turns of the loop
    makes no sound.  On an instrument with both registries empty, let
    [key_press] of a note key return with the product of the octave and
    the frequency not zero, so that the note is filed: [key_release] then
    returns too, and the next turn writes a buffer of [chunk_size] zeros,
    deletes the note, which was released at amplitude 0, and leaves both
    registries empty again. *)
Theorem tap_is_silent (self : Instrument) k f s1 :
  pressed_keys self = ∅ →
  releasing_keys self = ∅ →
  base_frequency k = Some f →
  octave self * f ≠ 0 →
  key_press k self = Returns tt s1 →
  ∃ s2 self',
    key_release k s1 = Returns tt s2
    ∧ emit_sound_turn np_sin np_pi s2
      = Returns (Some (np_zeros (chunk_size self))) self'
    ∧ pressed_keys self' = ∅
    ∧ releasing_keys self' = ∅.
Proof.
  intros Hp Hr Hf Hoct Hpress.
  rewrite (key_press_note _ _ _ Hf) in Hpress.
  assert (py_bool (octave self * f) = true) as Hbool
    by (unfold py_bool; by rewrite bool_decide_false).
  rewrite Hbool in Hpress. injection Hpress as <-.
  set (n := mkNote (octave self * f) 0).
  set (s1 := set_pressed_keys (<[k := n]> (pressed_keys self)) self).
  set (s2 := set_pressed_keys (delete k (pressed_keys s1))
               (set_releasing_keys (<[k := n]> (releasing_keys s1)) s1)).
  assert (Hrelease : key_release k s1 = Returns tt s2).
  { rewrite (key_release_note _ _ _ Hf). unfold s1 at 1. cbn.
    by rewrite lookup_insert_eq. }
  assert (Hp2 : pressed_keys s2 = ∅).
  { unfold s2, s1. cbn. by rewrite Hp, delete_insert_eq, delete_empty. }
  assert (Hr2 : releasing_keys s2 = {[k := n]}).
  { unfold s2, s1. cbn. by rewrite Hr. }
  destruct (emit_sound_turn_spent s2 k _ 0 Hp2 Hr2) as (self' & He & H);
    [done|].
  by exists s2, self'.
Qed.

End Tap.

Lemma tap_is_silent_witness :
  ∃ init self s1,
    Instrument_init [1] (Some [1]) 1 1 (Qc_of_Z 4) 2 = inr init
    ∧ self = run taylor_sin approx_pi [KeyRelease "x"] init
    ∧ pressed_keys self = ∅
    ∧ releasing_keys self = ∅
    ∧ base_frequency "a" = Some (Q2Qc 261.63)
    ∧ octave self * Q2Qc 261.63 ≠ 0
    ∧ key_press "a" self = Returns tt s1
    ∧ ∃ s2 self',
        key_release "a" s1 = Returns tt s2
        ∧ emit_sound_turn taylor_sin approx_pi s2
          = Returns (Some (np_zeros (chunk_size self))) self'
        ∧ pressed_keys self' = ∅
        ∧ releasing_keys self' = ∅.
Proof.
  eexists _, _, _. split; [reflexivity|]. split; [reflexivity|].
  match goal with |- pressed_keys ?s = ∅ ∧ _ => set (self := s) end.
  assert (Hp : pressed_keys self = ∅) by reflexivity.
  assert (Hr : releasing_keys self = ∅) by reflexivity.
  assert (Hf : base_frequency "a" = Some (Q2Qc 261.63)) by reflexivity.
  assert (Hoct : octave self * Q2Qc 261.63 ≠ 0) by by_compute.
  split; [exact Hp|]. split; [exact Hr|]. split; [exact Hf|].
  split; [exact Hoct|]. split; [reflexivity|].
  exact (tap_is_silent taylor_sin approx_pi self "a" _ _ Hp Hr Hf Hoct
           eq_refl).
Defined.

(** ** Harmonics and weights of different lengths *)

Lemma zip_app_unpaired {A B} (l e : list A) : ∀ k : list B,
  (length k ≤ length l)%nat → zip (l ++ e) k = zip l k.
Proof.
  induction l as [|x l IH]; intros [|y k] Hlen; simpl in *; try done.
  - by destruct e.
  - lia.
  - f_equal. apply IH. lia.
Qed.

Lemma zip_unpaired_app {A B} (l : list A) : ∀ (k e : list B),
  (length l ≤ length k)%nat → zip l (k ++ e) = zip l k.
Proof.
  induction l as [|x l IH]; intros [|y k] e Hlen; simpl in *; try done.
  - lia.
  - f_equal. apply IH. lia.
Qed.

(** X14.  [_generate_sound_chunk] pairs ratios and weights with [zip]: the
    ratios beyond the last weight, or the weights beyond the last ratio,
    take no part in the buffer.  Two instruments that differ only by such
    unpaired entries render the same buffer for every fundamental. *)
Theorem generate_sound_chunk_ignores_unpaired np_sin np_pi
    (self self' : Instrument) (extra : list Qc) (fund : Qc) :
  (harmonics self' = harmonics self ++ extra
   ∧ amps self' = amps self
   ∧ (length (amps self) ≤ length (harmonics self))%nat)
  ∨ (amps self' = amps self ++ extra
     ∧ harmonics self' = harmonics self
     ∧ (length (harmonics self) ≤ length (amps self))%nat) →
  chunk_size self' = chunk_size self →
  time_chunk self' = time_chunk self →
  time_offset self' = time_offset self →
  returned (_generate_sound_chunk np_sin np_pi fund self')
  = returned (_generate_sound_chunk np_sin np_pi fund self).
Proof.
  intros Hlists Hsz Htc Hoff. unfold _generate_sound_chunk, gets. cbn.
  rewrite Hsz, Htc, Hoff. do 2 f_equal.
  destruct Hlists as [(-> & -> & Hlen)|(-> & -> & Hlen)].
  - rewrite map_app. apply zip_app_unpaired. by rewrite length_map.
  - apply zip_unpaired_app. by rewrite length_map.
Qed.

Lemma generate_sound_chunk_ignores_unpaired_witness :
  ∃ self self',
    Instrument_init [1] (Some [1]) 1 1 (Qc_of_Z 4) 2 = inr self
    ∧ Instrument_init [1; 2] (Some [1]) 1 1 (Qc_of_Z 4) 2 = inr self'
    ∧ ((harmonics self' = harmonics self ++ [2]
        ∧ amps self' = amps self
        ∧ (length (amps self) ≤ length (harmonics self))%nat)
       ∨ (amps self' = amps self ++ [2]
          ∧ harmonics self' = harmonics self
          ∧ (length (harmonics self) ≤ length (amps self))%nat))
    ∧ chunk_size self' = chunk_size self
    ∧ time_chunk self' = time_chunk self
    ∧ time_offset self' = time_offset self
    ∧ returned (_generate_sound_chunk taylor_sin approx_pi 1 self')
      = returned (_generate_sound_chunk taylor_sin approx_pi 1 self).
Proof.
  eexists _, _. split; [reflexivity|]. split; [reflexivity|].
  match goal with
  | |- (harmonics ?s' = harmonics ?s ++ _ ∧ _ ∨ _) ∧ _ =>
      set (self := s); set (self' := s')
  end.
  assert (H1 : (harmonics self' = harmonics self ++ [2]
                ∧ amps self' = amps self
                ∧ (length (amps self) ≤ length (harmonics self))%nat)
               ∨ (amps self' = amps self ++ [2]
                  ∧ harmonics self' = harmonics self
                  ∧ (length (harmonics self) ≤ length (amps self))%nat)).
  { left. split; [reflexivity|]. split; [reflexivity|]. simpl. lia. }
  assert (H2 : chunk_size self' = chunk_size self) by reflexivity.
  assert (H3 : time_chunk self' = time_chunk self) by reflexivity.
  assert (H4 : time_offset self' = time_offset self) by reflexivity.
  split; [exact H1|]. split; [exact H2|]. split; [exact H3|].
  split; [exact H4|].
  exact (generate_sound_chunk_ignores_unpaired taylor_sin approx_pi
           self self' [2] 1 H1 H2 H3 H4).
Defined.

(** ** The envelope inside a buffer *)

Lemma lookup_np_multiply (l k : list Qc) i x y :
  l !! i = Some x → k !! i = Some y → np_multiply l k !! i = Some (x * y).
Proof.
  intros Hl Hk. unfold np_multiply. rewrite lookup_zip_with, Hl. cbn.
  by rewrite Hk.
Qed.

Lemma length_np_multiply_ramp {A} (g : A → Qc) (times : list A) start stop :
  length (np_multiply (map g times) (np_linspace start stop (length times)))
  = length times.
Proof.
  unfold np_multiply.
  rewrite length_zip_with, length_map, length_np_linspace. lia.
Qed.

Section Envelope.

Variable np_sin : Qc → Qc.
Variable np_pi : Qc.

(** The buffer of a turn with a single pressed note below amplitude 1 and
    nothing releasing. *)
Lemma emit_sound_turn_attacking self k f a :
  pressed_keys self = {[k := mkNote f a]} →
  releasing_keys self = ∅ →
  a < 1 →
  n_attack_samples self ≠ 0 →
  length (time_chunk self) = chunk_size self →
  ∃ self',
    emit_sound_turn np_sin np_pi self
    = Returns
        (Some (np_multiply
                 (map (λ t, closed_form_wave np_sin np_pi (harmonics self)
                              (amps self) f (t + time_offset self))
                    (time_chunk self))
                 (np_linspace a (a + envelope_step self) (chunk_size self))))
        self'.
Proof.
  intros Hp Hr Ha Hn Hlen.
  assert (Hbody : ∃ s1,
    pressed_body np_sin np_pi k (np_zeros (chunk_size self)) self
    = Returns
        (np_multiply
           (map (λ t, closed_form_wave np_sin np_pi (harmonics self)
                        (amps self) f (t + time_offset self))
              (time_chunk self))
           (np_linspace a (a + envelope_step self) (chunk_size self)))
        s1
    ∧ releasing_keys s1 = ∅ ∧ chunk_size s1 = chunk_size self).
  { unfold pressed_body. munfold. rewrite Hp, lookup_singleton_eq. cbn.
    rewrite bool_decide_true by done. cbn.
    rewrite decide_False by done. cbn.
    rewrite sound_chunk_closed_form by done. fold (envelope_step self).
    change (zip_with Qcmult ?x ?y) with (np_multiply x y).
    case_bool_decide; cbn;
      (rewrite np_add_zeros_l
         by (by rewrite <- Hlen, length_np_multiply_ramp));
      by eexists. }
  destruct Hbody as (s1 & Hbody & Hr1 & Hsz1).
  unfold emit_sound_turn, _generate_pressed_sound, _generate_releasing_sound.
  munfold.
  rewrite (bool_decide_false (pressed_keys self = ∅))
    by (rewrite Hp; apply map_non_empty_singleton).
  cbn. rewrite Hp, map_to_list_singleton. cbn.
  unfold mbind, M_bind, mret, M_ret. rewrite Hbody.
  rewrite Hr1, map_to_list_empty, Hsz1. cbn.
  rewrite np_add_zeros_r by (by rewrite <- Hlen, length_np_multiply_ramp).
  rewrite np_add_zeros_l by (by rewrite <- Hlen, length_np_multiply_ramp).
  case_bool_decide; by eexists.
Qed.

(** X15.  Within a buffer the attack is a straight ramp that is not
    clamped: with a single pressed note of amplitude [a < 1] and nothing
    releasing, sample [i] of the buffer written is the closed form of the
    note at that sample's time multiplied by
    [a + i * (step / chunk_size)], where [step] is
    [chunk_size / n_attack_samples].  The gain starts at the stored
    amplitude, and nothing keeps it from passing 1 before the end of the
    buffer, although the amplitude stored afterwards is clamped to 1. *)
Theorem attack_envelope_is_linear self k f a i t :
  pressed_keys self = {[k := mkNote f a]} →
  releasing_keys self = ∅ →
  a < 1 →
  n_attack_samples self ≠ 0 →
  length (time_chunk self) = chunk_size self →
  time_chunk self !! i = Some t →
  ∃ c self',
    emit_sound_turn np_sin np_pi self = Returns (Some c) self'
    ∧ c !! i
      = Some (closed_form_wave np_sin np_pi (harmonics self) (amps self) f
                (t + time_offset self)
              * (a + Qc_of_nat i
                     * (envelope_step self / Qc_of_nat (chunk_size self)))).
Proof.
  intros Hp Hr Ha Hn Hlen Ht.
  destruct (emit_sound_turn_attacking self k f a Hp Hr Ha Hn Hlen)
    as [self' He].
  eexists _, self'. split; [exact He|].
  assert (Hi : (i < chunk_size self)%nat).
  { rewrite <- Hlen. by eapply lookup_lt_Some. }
  erewrite lookup_np_multiply;
    [|by rewrite lookup_map, Ht|by apply lookup_np_linspace].
  do 2 f_equal.
  assert (Hsize : (0 < chunk_size self)%nat) by lia.
  pose proof (Qc_pos_nonzero _ (Qc_of_nat_pos _ Hsize)).
  by field.
Qed.

(** The buffer of a turn with nothing pressed and a single releasing note
    of positive amplitude. *)
Lemma emit_sound_turn_fading self k f a :
  pressed_keys self = ∅ →
  releasing_keys self = {[k := mkNote f a]} →
  0 < a →
  n_attack_samples self ≠ 0 →
  length (time_chunk self) = chunk_size self →
  ∃ self',
    emit_sound_turn np_sin np_pi self
    = Returns
        (Some (np_multiply
                 (map (λ t, closed_form_wave np_sin np_pi (harmonics self)
                              (amps self) f (t + time_offset self))
                    (time_chunk self))
                 (np_linspace a (a - envelope_step self) (chunk_size self))))
        self'.
Proof.
  intros Hp Hr Ha Hn Hlen.
  assert (Hbody : ∃ s1,
    releasing_body np_sin np_pi k (np_zeros (chunk_size self)) self
    = Returns
        (np_multiply
           (map (λ t, closed_form_wave np_sin np_pi (harmonics self)
                        (amps self) f (t + time_offset self))
              (time_chunk self))
           (np_linspace a (a - envelope_step self) (chunk_size self)))
        s1).
  { unfold releasing_body. munfold. rewrite Hr, lookup_singleton_eq. cbn.
    rewrite bool_decide_true by done. cbn.
    rewrite decide_False by done. cbn.
    rewrite sound_chunk_closed_form by done. fold (envelope_step self).
    change (zip_with Qcmult ?x ?y) with (np_multiply x y).
    rewrite np_add_zeros_l
      by (by rewrite <- Hlen, length_np_multiply_ramp).
    by eexists. }
  destruct Hbody as (s1 & Hbody).
  unfold emit_sound_turn, _generate_pressed_sound, _generate_releasing_sound.
  munfold. rewrite bool_decide_true by done.
  rewrite (bool_decide_false (releasing_keys self = ∅))
    by (rewrite Hr; apply map_non_empty_singleton).
  cbn. rewrite Hp, map_to_list_empty. cbn.
  rewrite Hr, map_to_list_singleton. cbn.
  unfold mbind, M_bind, mret, M_ret. rewrite Hbody. cbn.
  rewrite !(np_add_zeros_l (np_multiply _ _) (chunk_size self))
    by (by rewrite <- Hlen, length_np_multiply_ramp).
  case_bool_decide; by eexists.
Qed.

(** X16.  Within a buffer the release is a straight ramp that is not
    clamped either: with nothing pressed and a single releasing note of
    amplitude [a > 0], sample [i] of the buffer written is the closed form
    of the note at that sample's time multiplied by
    [a - i * (step / chunk_size)], with the same [step] as the attack.
    Nothing keeps the gain from passing below 0 before the end of the
    note's last buffer. *)
Theorem release_envelope_is_linear self k f a i t :
  pressed_keys self = ∅ →
  releasing_keys self = {[k := mkNote f a]} →
  0 < a →
  n_attack_samples self ≠ 0 →
  length (time_chunk self) = chunk_size self →
  time_chunk self !! i = Some t →
  ∃ c self',
    emit_sound_turn np_sin np_pi self = Returns (Some c) self'
    ∧ c !! i
      = Some (closed_form_wave np_sin np_pi (harmonics self) (amps self) f
                (t + time_offset self)
              * (a - Qc_of_nat i
                     * (envelope_step self / Qc_of_nat (chunk_size self)))).
Proof.
  intros Hp Hr Ha Hn Hlen Ht.
  destruct (emit_sound_turn_fading self k f a Hp Hr Ha Hn Hlen)
    as [self' He].
  eexists _, self'. split; [exact He|].
  assert (Hi : (i < chunk_size self)%nat).
  { rewrite <- Hlen. by eapply lookup_lt_Some. }
  erewrite lookup_np_multiply;
    [|by rewrite lookup_map, Ht|by apply lookup_np_linspace].
  do 2 f_equal.
  assert (Hsize : (0 < chunk_size self)%nat) by lia.
  pose proof (Qc_pos_nonzero _ (Qc_of_nat_pos _ Hsize)).
  by field.
Qed.

End Envelope.

Lemma attack_envelope_is_linear_witness :
  ∃ init self,
    Instrument_init [1] (Some [1]) 1 1 (Qc_of_Z 4) 3 = inr init
    ∧ self = run taylor_sin approx_pi [KeyPress "a"; Turn] init
    ∧ pressed_keys self = {["a" := mkNote (1 * Q2Qc 261.63) (Q2Qc 0.75)]}
    ∧ releasing_keys self = ∅
    ∧ Q2Qc 0.75 < 1
    ∧ n_attack_samples self ≠ 0
    ∧ length (time_chunk self) = chunk_size self
    ∧ time_chunk self !! 2%nat = Some (1 / 2)
    ∧ 1 < Q2Qc 0.75
          + Qc_of_nat 2 * (envelope_step self / Qc_of_nat (chunk_size self))
    ∧ ∃ c self',
        emit_sound_turn taylor_sin approx_pi self = Returns (Some c) self'
        ∧ c !! 2%nat
          = Some (closed_form_wave taylor_sin approx_pi (harmonics self)
                    (amps self) (1 * Q2Qc 261.63) (1 / 2 + time_offset self)
                  * (Q2Qc 0.75
                     + Qc_of_nat 2
                       * (envelope_step self / Qc_of_nat (chunk_size self)))).
Proof.
  eexists _, _. split; [reflexivity|]. split; [reflexivity|].
  match goal with |- pressed_keys ?s = _ ∧ _ => set (self := s) end.
  assert (Hp : pressed_keys self
               = {["a" := mkNote (1 * Q2Qc 261.63) (Q2Qc 0.75)]})
    by by_compute.
  assert (Hr : releasing_keys self = ∅) by by_compute.
  assert (Ha : Q2Qc 0.75 < 1) by by_compute.
  assert (Hn : n_attack_samples self ≠ 0) by by_compute.
  assert (Hlen : length (time_chunk self) = chunk_size self) by reflexivity.
  assert (Ht : time_chunk self !! 2%nat = Some (1 / 2)) by by_compute.
  split; [exact Hp|]. split; [exact Hr|]. split; [exact Ha|].
  split; [exact Hn|]. split; [exact Hlen|]. split; [exact Ht|].
  split; [by_compute|].
  exact (attack_envelope_is_linear taylor_sin approx_pi self "a" _ _ 2 _
           Hp Hr Ha Hn Hlen Ht).
Defined.

Lemma release_envelope_is_linear_witness :
  ∃ init self,
    Instrument_init [1] (Some [1]) 1 1 (Qc_of_Z 4) 3 = inr init
    ∧ self = run taylor_sin approx_pi
               [KeyPress "a"; Turn; Turn; KeyRelease "a"; Turn] init
    ∧ pressed_keys self = ∅
    ∧ releasing_keys self = {["a" := mkNote (1 * Q2Qc 261.63) (Q2Qc 0.25)]}
    ∧ 0 < Q2Qc 0.25
    ∧ n_attack_samples self ≠ 0
    ∧ length (time_chunk self) = chunk_size self
    ∧ time_chunk self !! 2%nat = Some (1 / 2)
    ∧ Q2Qc 0.25
      - Qc_of_nat 2 * (envelope_step self / Qc_of_nat (chunk_size self)) < 0
    ∧ ∃ c self',
        emit_sound_turn taylor_sin approx_pi self = Returns (Some c) self'
        ∧ c !! 2%nat
          = Some (closed_form_wave taylor_sin approx_pi (harmonics self)
                    (amps self) (1 * Q2Qc 261.63) (1 / 2 + time_offset self)
                  * (Q2Qc 0.25
                     - Qc_of_nat 2
                       * (envelope_step self / Qc_of_nat (chunk_size self)))).
Proof.
  eexists _, _. split; [reflexivity|]. split; [reflexivity|].
  match goal with |- pressed_keys ?s = _ ∧ _ => set (self := s) end.
  assert (Hp : pressed_keys self = ∅) by by_compute.
  assert (Hr : releasing_keys self
               = {["a" := mkNote (1 * Q2Qc 261.63) (Q2Qc 0.25)]})
    by by_compute.
  assert (Ha : 0 < Q2Qc 0.25) by by_compute.
  assert (Hn : n_attack_samples self ≠ 0) by by_compute.
  assert (Hlen : length (time_chunk self) = chunk_size self) by reflexivity.
  assert (Ht : time_chunk self !! 2%nat = Some (1 / 2)) by by_compute.
  split; [exact Hp|]. split; [exact Hr|]. split; [exact Ha|].
  split; [exact Hn|]. split; [exact Hlen|]. split; [exact Ht|].
  split; [by_compute|].
  exact (release_envelope_is_linear taylor_sin approx_pi self "a" _ _ 2 _
           Hp Hr Ha Hn Hlen Ht).
Defined.

(** ** The listener callbacks *)

(** X17.  The set of held keys shields the instrument from the repeated
    press events of a key kept down: after [on_press] the key is in the
    set, a second [on_press] of it returns nothing and leaves the session,
    instrument included, exactly as it is, and [on_release] takes the key
    out of the set again. *)
Theorem on_press_held_key (key : pynput_key) (s : session) :
  key ∈ pressed (on_press key s).2
  ∧ on_press key (on_press key s).2 = (None, (on_press key s).2)
  ∧ key ∉ pressed (on_release key (on_press key s).2).
Proof.
  assert (Hin : key ∈ pressed (on_press key s).2).
  { unfold on_press. destruct (decide (key ∈ pressed s)); [done|].
    destruct (key_char key); [destruct (key_press _ _)|]; cbn; set_solver. }
  split; [done|]. split.
  - unfold on_press at 1. by rewrite decide_True.
  - unfold on_release.
    destruct (key_char key); cbn;
      intros [_ Hn]%elem_of_difference; apply Hn; by apply elem_of_singleton.
Qed.

(** X18.  [on_press] returns [False], which stops the listener, for one
    event only: the special key named ['ctrl'] when it is not already
    held.  No character key stops the listener, whatever [key_press] does
    with it, and [on_press] never returns [True]. *)
Theorem on_press_stops_on_ctrl (key : pynput_key) (s : session) :
  ((on_press key s).1 = Some false ↔ key = Key "ctrl" ∧ key ∉ pressed s)
  ∧ (on_press key s).1 ≠ Some true.
Proof.
  unfold on_press. destruct (decide (key ∈ pressed s)) as [Hin|Hout].
  - cbn. split; [|done]. split; [done|]. by intros [_ ?].
  - destruct key as [char|name]; cbn.
    + destruct (key_press char (instrument s)); cbn;
        (split; [|done]); (split; [done|]); by intros [[=] _].
    + unfold ctrl_check. cbn. destruct (String.eqb_spec name "ctrl") as [->|Hne].
      * split; [|done]. by split.
      * split; [|done]. split; [done|]. intros [[= ->] _]. done.
Qed.

(** X19.  Events the instrument has no use for change nothing in it: a
    special key, or a character other than ['z'] and ['x'] that resolves to
    no frequency, pressed or released; and a note key released while it is
    not in [pressed_keys].  The exceptions [key_press] and [key_release]
    raise on the way are swallowed by the callbacks. *)
Theorem listener_ignores_foreign_keys (key : pynput_key) (s : session) :
  match key with
  | Key _ =>
      instrument (on_press key s).2 = instrument s
      ∧ instrument (on_release key s) = instrument s
  | KeyCode char =>
      (base_frequency char = None → char ≠ "z" → char ≠ "x" →
       instrument (on_press key s).2 = instrument s
       ∧ instrument (on_release key s) = instrument s)
      ∧ (is_Some (base_frequency char) →
         pressed_keys (instrument s) !! char = None →
         instrument (on_release key s) = instrument s)
  end.
Proof.
  destruct key as [char|name].
  - split.
    + intros Hf Hz Hx.
      assert (Hshift : octave_shift char (instrument s) = instrument s).
      { unfold octave_shift.
        destruct (String.eqb_spec char "z"); [done|].
        by destruct (String.eqb_spec char "x"). }
      split.
      * unfold on_press. destruct (decide _); [done|]. cbn.
        by rewrite (key_press_other _ _ Hf), Hshift.
      * unfold on_release. cbn.
        by rewrite (key_release_other _ _ Hf), Hshift.
    + intros [f Hf] Hk. unfold on_release. cbn.
      by rewrite (key_release_note _ _ _ Hf), Hk.
  - split.
    + unfold on_press. by destruct (decide _).
    + done.
Qed.

(** ** What events leave alone *)

Section Frames.

Variable np_sin : Qc → Qc.
Variable np_pi : Qc.

(** X20.  The settings of an instrument are fixed at construction: no
    sequence of key presses, key releases and turns changes the harmonic
    ratios, the weights, the durations, the sample counts, the sample rate,
    the buffer length, the buffer duration or the sample times. *)
Theorem settings_never_change h a att rel sr size init es :
  Instrument_init h a att rel sr size = inr init →
  same_settings init (run np_sin np_pi es init)
  ∧ harmonics (run np_sin np_pi es init) = h
  ∧ a = Some (amps (run np_sin np_pi es init))
  ∧ chunk_size (run np_sin np_pi es init) = size
  ∧ sample_rate (run np_sin np_pi es init) = sr.
Proof.
  intros Hinit.
  pose proof (Instrument_init_n_attack_samples _ _ _ _ _ _ _ Hinit) as Hn.
  pose proof (run_settings np_sin np_pi es init Hn) as Hs.
  split; [done|].
  destruct Hs as (Hh & Ha & _ & _ & _ & _ & Hsr & Hsz & _).
  apply Instrument_init_fields in Hinit
    as (Ha0 & _ & Hh0 & _ & Hsz0 & Hsr0 & _).
  by rewrite Hh, Ha, Hsz, Hsr.
Qed.

(** X21.  Voices do not disturb one another, and the octave is not applied
    in retrospect.  In a state reached from construction, an event on
    another key, the octave keys included, leaves the notes filed under a
    key in both registries exactly as they are; a turn of the loop keeps
    the fundamental of a pressed note, and keeps the fundamental of a
    releasing note unless it deletes the note. *)
Theorem voices_are_independent h a att rel sr size init es k :
  Instrument_init h a att rel sr size = inr init →
  (∀ k', k' ≠ k →
     (pressed_keys (run np_sin np_pi (es ++ [KeyPress k']) init) !! k
      = pressed_keys (run np_sin np_pi es init) !! k
      ∧ releasing_keys (run np_sin np_pi (es ++ [KeyPress k']) init) !! k
        = releasing_keys (run np_sin np_pi es init) !! k)
     ∧ (pressed_keys (run np_sin np_pi (es ++ [KeyRelease k']) init) !! k
        = pressed_keys (run np_sin np_pi es init) !! k
        ∧ releasing_keys (run np_sin np_pi (es ++ [KeyRelease k']) init) !! k
          = releasing_keys (run np_sin np_pi es init) !! k))
  ∧ (∀ n, pressed_keys (run np_sin np_pi es init) !! k = Some n →
       ∃ n', pressed_keys (run np_sin np_pi (es ++ [Turn]) init) !! k
             = Some n'
             ∧ fundamental n' = fundamental n)
  ∧ (∀ n, releasing_keys (run np_sin np_pi es init) !! k = Some n →
       releasing_keys (run np_sin np_pi (es ++ [Turn]) init) !! k = None
       ∨ ∃ n', releasing_keys (run np_sin np_pi (es ++ [Turn]) init) !! k
               = Some n'
               ∧ fundamental n' = fundamental n).
Proof.
  intros Hinit.
  pose proof (Instrument_init_n_attack_samples _ _ _ _ _ _ _ Hinit) as Hn.
  destruct (run_settings np_sin np_pi es init Hn)
    as (_ & _ & _ & Hn' & _).
  assert (Hsnoc : ∀ e, run np_sin np_pi (es ++ [e]) init
                       = event_state e (run np_sin np_pi es init)).
  { intros e. unfold run at 1. rewrite foldl_app. simpl.
    change (foldl (λ s e, handle np_sin np_pi e s) init es)
      with (run np_sin np_pi es init).
    rewrite handle_state by (by rewrite Hn'). by destruct e. }
  rewrite !Hsnoc. set (self := run np_sin np_pi es init) in *.
  split; [|split].
  - intros k' Hk'. rewrite !Hsnoc. simpl. split.
    + unfold press_state. destruct (base_frequency k') as [f|].
      * destruct (py_bool (octave self * f)); [|by split]. cbn.
        by rewrite lookup_insert_ne.
      * by destruct (octave_shift_registries k' self) as [-> ->].
    + unfold release_state. destruct (base_frequency k') as [f|].
      * destruct (pressed_keys self !! k'); [|by split]. cbn.
        by rewrite lookup_delete_ne, lookup_insert_ne.
      * by destruct (octave_shift_registries k' self) as [-> ->].
  - intros n Hk. simpl. rewrite turn_state_pressed, lookup_fmap, Hk. cbn.
    eexists. split; [done|]. unfold attack_note. by case_bool_decide.
  - intros n Hk. simpl. rewrite turn_state_releasing, lookup_omap, Hk. cbn.
    unfold release_note. case_bool_decide; [right|by left]. by eexists.
Qed.

End Frames.

Lemma settings_never_change_witness :
  ∃ init,
    Instrument_init [1] (Some [1]) 1 1 (Qc_of_Z 4) 2 = inr init
    ∧ same_settings init
        (run taylor_sin approx_pi [KeyPress "a"; Turn; KeyRelease "z"] init)
    ∧ harmonics
        (run taylor_sin approx_pi [KeyPress "a"; Turn; KeyRelease "z"] init)
      = [1]
    ∧ Some [1]
      = Some (amps (run taylor_sin approx_pi
                      [KeyPress "a"; Turn; KeyRelease "z"] init))
    ∧ chunk_size
        (run taylor_sin approx_pi [KeyPress "a"; Turn; KeyRelease "z"] init)
      = 2%nat
    ∧ sample_rate
        (run taylor_sin approx_pi [KeyPress "a"; Turn; KeyRelease "z"] init)
      = Qc_of_Z 4.
Proof.
  eexists. split; [reflexivity|].
  exact (settings_never_change taylor_sin approx_pi [1] (Some [1]) 1 1
           (Qc_of_Z 4) 2 _ [KeyPress "a"; Turn; KeyRelease "z"] eq_refl).
Defined.

Lemma voices_are_independent_witness :
  ∃ init,
    Instrument_init [1] (Some [1]) 1 1 (Qc_of_Z 4) 2 = inr init
    ∧ amp <$> pressed_keys
                (run taylor_sin approx_pi [KeyPress "a"; Turn] init) !! "a"
      = Some (1 / 2)
    ∧ pressed_keys
        (run taylor_sin approx_pi ([KeyPress "a"; Turn] ++ [KeyRelease "z"])
           init) !! "a"
      = pressed_keys (run taylor_sin approx_pi [KeyPress "a"; Turn] init)
        !! "a".
Proof.
  eexists. split; [reflexivity|]. split; [by_compute|].
  assert (Hne : "z" ≠ "a") by done.
  exact (proj1 (proj2 (proj1
           (voices_are_independent taylor_sin approx_pi [1] (Some [1]) 1 1
              (Qc_of_Z 4) 2 _ [KeyPress "a"; Turn] "a" eq_refl) "z" Hne))).
Defined.
